(** * visualize-it: the frontend's repair, validation and state logic

    A shallow embedding of the decision logic of the React frontend
    ([VisualizationDisplay.js], [App.js], [ModelSelector.js],
    [LoggingService.js], [DataInput.js], [PlotlyEditor.js]) and the
    properties the specification states about it.

    JavaScript values are the JSON values the backend can send, objects
    are finite maps from property names to values, and code that can
    throw returns an [outcome]. *)

From Stdlib Require Import QArith.
From stdpp Require Import gmap strings list fin_maps pretty.

Close Scope Q_scope.
Set Warnings "-register-all".

(* ===================================================================== *)
(** * JavaScript values *)
(* ===================================================================== *)

Module JS.

(** The values that [JSON.parse] produces, plus [undefined] (the result of
    reading an absent property).  A JSON number is a decimal literal, kept
    here as a rational: no modelled function computes with numbers, they
    are only tested for truthiness and for being positive.  An object is a
    finite map: the modelled code reads and writes properties by name and
    never observes their order. *)
Inductive JSValue : Type :=
| JUndefined
| JNull
| JBool (b : bool)
| JNum (q : Q)
| JStr (s : string)
| JArr (elems : list JSValue)
| JObj (props : gmap string JSValue).

Definition JInt (z : Z) : JSValue := JNum (inject_Z z).

(** Exceptions.  [TypeError] is what the engine raises on a property read
    from [null] or [undefined] and on spreading a non-iterable into an
    array; [RequestError] is a rejected HTTP request with its message. *)
Inductive JSError : Type :=
| TypeError
| RequestError (message : string).

Inductive outcome (A : Type) : Type :=
| Returns (a : A)
| Throws (e : JSError).

Arguments Returns {A} a.
Arguments Throws {A} e.

Definition bind {A B : Type} (c : outcome A) (k : A → outcome B) : outcome B :=
  match c with
  | Returns a => k a
  | Throws e => Throws e
  end.

Notation "'let!' x ':=' c 'in' k" := (bind c (λ x, k))
  (at level 10, x name, c at level 100, k at level 200, only parsing).

(** [ToBoolean]: the falsy values are [undefined], [null], [false], [0]
    and the empty string; arrays and objects are truthy, empty or not. *)
Definition truthy (v : JSValue) : bool :=
  match v with
  | JUndefined | JNull => false
  | JBool b => b
  | JNum q => negb (Qnum q =? 0)%Z
  | JStr s => negb (String.eqb s "")
  | JArr _ | JObj _ => true
  end.

(** [Array.isArray]. *)
Definition isArray (v : JSValue) : bool :=
  match v with
  | JArr _ => true
  | _ => false
  end.

(** [v === s] for a string literal [s]. *)
Definition strict_eq_str (v : JSValue) (s : string) : bool :=
  match v with
  | JStr t => String.eqb t s
  | _ => false
  end.

(** The one-character strings of a string, as string iteration and string
    indexing yield them. *)
Definition chars (s : string) : list JSValue :=
  (λ c, JStr (String c EmptyString)) <$> String.list_ascii_of_string s.

(** The index properties ["0"], ["1"], ... of an array-like. *)
Definition index_props (l : list JSValue) : gmap string JSValue :=
  list_to_map (imap (λ i v, (pretty i, v)) l).

(** The own enumerable properties of a value, as object spread and
    property enumeration see them: the properties of an object, the
    indices of an array or of a string, nothing for the other
    primitives, [null] and [undefined]. *)
Definition own_props (v : JSValue) : gmap string JSValue :=
  match v with
  | JObj o => o
  | JArr l => index_props l
  | JStr s => index_props (chars s)
  | _ => ∅
  end.

(** One [...src] inside an object literal: every own property of [src] is
    defined on the object under construction, replacing what was there. *)
Definition spread (target : gmap string JSValue) (src : JSValue) : gmap string JSValue :=
  own_props src ∪ target.

(** [{ ...a, ...b, ... }]. *)
Definition object_spread (srcs : list JSValue) : gmap string JSValue :=
  foldl spread ∅ srcs.

(** Reading property [k] of a plain object. *)
Definition field (o : gmap string JSValue) (k : string) : JSValue :=
  default JUndefined (o !! k).

(** [v.length] of an array or a string. *)
Definition length_value (n : nat) : JSValue := JInt (Z.of_nat n).

(** [v.k] for a property name [k].  Own properties and [length] are
    modelled; the methods that prototypes provide are not (no modelled
    call site reads one). *)
Definition prop (v : JSValue) (k : string) : outcome JSValue :=
  match v with
  | JUndefined | JNull => Throws TypeError
  | JArr l =>
      Returns (if String.eqb k "length" then length_value (length l)
               else field (index_props l) k)
  | JStr s =>
      Returns (if String.eqb k "length" then length_value (String.length s)
               else field (index_props (chars s)) k)
  | JObj o => Returns (field o k)
  | JBool _ | JNum _ => Returns JUndefined
  end.

(** [v[i]] for an index [i]. *)
Definition index (v : JSValue) (i : nat) : outcome JSValue :=
  match v with
  | JUndefined | JNull => Throws TypeError
  | JArr l => Returns (default JUndefined (l !! i))
  | JStr s => Returns (default JUndefined (chars s !! i))
  | JObj o => Returns (field o (pretty i))
  | JBool _ | JNum _ => Returns JUndefined
  end.

(** [[...v]]: arrays and strings are iterable, spreading anything else
    into an array literal raises a [TypeError]. *)
Definition array_spread (v : JSValue) : outcome (list JSValue) :=
  match v with
  | JArr l => Returns l
  | JStr s => Returns (chars s)
  | _ => Throws TypeError
  end.

(** [a[i] = v] on an array: in range the slot is replaced, out of range
    the array is extended up to [i]; the slots in between are holes, which
    read as [undefined]. *)
Definition array_set (l : list JSValue) (i : nat) (v : JSValue) : list JSValue :=
  if decide (i < length l) then <[i := v]> l
  else l ++ replicate (i - length l) JUndefined ++ [v].

(** ECMAScript's [ToNumber] on the values that are not numbers already
    (strings are parsed, arrays and objects go through [toString]); [None]
    stands for [NaN].  The modelled code only reaches it through [x > 0],
    and the properties below hold whatever it returns. *)
Class Coercion := { ToNumber : JSValue → option Q }.

(** [v > 0]. *)
Definition gt_zero `{Coercion} (v : JSValue) : bool :=
  match v with
  | JNum q => (0 <? Qnum q)%Z
  | JUndefined | JNull => false
  | JBool b => b
  | _ => match ToNumber v with
         | Some q => (0 <? Qnum q)%Z
         | None => false
         end
  end.

(** How an [axios] request settles: [response.data] of the answer, or
    the message of the error the promise rejects with. *)
Inductive response : Type :=
| Answered (data : JSValue)
| Rejected (message : string).

End JS.

(* ===================================================================== *)
(** * components/VisualizationDisplay.js *)
(* ===================================================================== *)

Module VisualizationDisplay.
Import JS.

(** The body of the [for (const trace of data)] loop of
    [isValidPlotlyData]: [Returns false] is its [return false], [Returns
    true] is falling through to the next trace.  [trace.type] is the first
    property read, so it is the one that throws on a [null] trace.  The
    lines written to the console are left out, and with them the
    conversion to a string of what they print. *)
Definition validTrace (trace : JSValue) : outcome bool :=
  let! ty := prop trace "type" in
  if negb (truthy ty) then Returns false
  else if strict_eq_str ty "bar" || strict_eq_str ty "scatter" then
    let! x := prop trace "x" in
    let! y := prop trace "y" in
    if negb (isArray x) || negb (isArray y) then Returns false else Returns true
  else if strict_eq_str ty "pie" then
    let! values := prop trace "values" in
    let! labels := prop trace "labels" in
    if negb (isArray values) || negb (isArray labels) then Returns false
    else Returns true
  else Returns true.

Fixpoint validTraces (data : list JSValue) : outcome bool :=
  match data with
  | [] => Returns true
  | trace :: rest =>
      let! ok := validTrace trace in
      if ok then validTraces rest else Returns false
  end.

(** [isValidPlotlyData(data)]. *)
Definition isValidPlotlyData (data : JSValue) : outcome bool :=
  if negb (truthy data) then Returns false
  else match data with
       | JArr traces =>
           if (length traces =? 0)%nat then Returns false
           else validTraces traces
       | _ => Returns false
       end.

(** The [defaultLayout] object of [getPlotlyLayout]. *)
Definition margin : gmap string JSValue :=
  {[ "l" := JInt 50; "r" := JInt 50; "b" := JInt 50; "t" := JInt 50;
     "pad" := JInt 4 ]}.

Definition defaultLayout (title : JSValue) : gmap string JSValue :=
  {[ "title" := if truthy title then title else JStr "Visualization";
     "autosize" := JBool true;
     "margin" := JObj margin ]}.

(** [getPlotlyLayout(visualization)]. *)
Definition getPlotlyLayout (visualization : JSValue) : outcome (gmap string JSValue) :=
  let! title := prop visualization "title" in
  let! plotlyLayout := prop visualization "plotlyLayout" in
  if truthy plotlyLayout
  then Returns (object_spread [JObj (defaultLayout title); plotlyLayout])
  else Returns (defaultLayout title).

(** The callback that [sanitizePlotlyData] maps over the traces, one
    definition per statement on [sanitizedTrace].

    "Ensure type is set". *)
Definition ensure_type (t : gmap string JSValue) : gmap string JSValue :=
  if negb (truthy (field t "type")) then <["type" := JStr "scatter"]> t else t.

(** [if (t.k && !Array.isArray(t.k)) t.k = [t.k]]. *)
Definition promote (k : string) (t : gmap string JSValue) : gmap string JSValue :=
  if truthy (field t k) && negb (isArray (field t k))
  then <[k := JArr [field t k]]> t
  else t.

(** "Convert non-array x/y to arrays if needed". *)
Definition convert_xy (t : gmap string JSValue) : gmap string JSValue :=
  if strict_eq_str (field t "type") "scatter" || strict_eq_str (field t "type") "bar"
  then promote "y" (promote "x" t) else t.

(** "Ensure mode is set for scatter plots". *)
Definition ensure_mode (t : gmap string JSValue) : gmap string JSValue :=
  if strict_eq_str (field t "type") "scatter" && negb (truthy (field t "mode"))
  then <["mode" := JStr "lines+markers"]> t else t.

Definition sanitizeTrace (trace : JSValue) : gmap string JSValue :=
  ensure_mode (convert_xy (ensure_type (object_spread [trace]))).

(** A field that [promote] leaves as it is: falsy, or an array already. *)
Definition settled (k : string) (t : gmap string JSValue) : Prop :=
  truthy (field t k) && negb (isArray (field t k)) = false.

(** [sanitizePlotlyData(data)]. *)
Definition sanitizePlotlyData (data : JSValue) : JSValue :=
  match data with
  | JArr traces => JArr ((λ trace, JObj (sanitizeTrace trace)) <$> traces)
  | _ => JNull
  end.



(** The component's own state. *)
Inductive plotly_error : Type :=
| RetryFailed              (* "Retry failed to generate valid visualizations" *)
| RetryError (e : JSError) (* `Retry error: ${error.message}` *)
| PlotlyError (message : JSValue). (* set by the plot's onError *)

Record state : Type := mkState {
  plotlyError : option plotly_error;
  isRetrying : bool;
  retryCount : nat
}.

(** What the component returns from its render. *)
Inductive view : Type :=
| NoVisualization
| ErrorPanel (message : JSValue)
| RetryPanel (title : JSValue) (e : plotly_error)
| Plot (title : JSValue) (data : JSValue) (layout : gmap string JSValue)
| D3Svg (title : JSValue).

Definition msg_missing_data : JSValue :=
  JStr "Missing Plotly data in visualization".
Definition msg_invalid_data : JSValue :=
  JStr "Invalid data structure for Plotly visualization. Check console for details.".
Definition msg_failed_process : JSValue :=
  JStr "Failed to process visualization data".

(** The render body of the component, from [if (!visualization)] on. *)
Definition render (st : state) (visualization : JSValue) : outcome view :=
  if negb (truthy visualization) then Returns NoVisualization
  else
    let! error := prop visualization "error" in
    if truthy error then Returns (ErrorPanel error)
    else
      let! type := prop visualization "type" in
      let! title := prop visualization "title" in
      if strict_eq_str type "plotly" then
        let! plotlyData := prop visualization "plotlyData" in
        if negb (truthy plotlyData) then Returns (ErrorPanel msg_missing_data)
        else
          let! valid := isValidPlotlyData plotlyData in
          if negb valid then Returns (ErrorPanel msg_invalid_data)
          else
            let! layout := getPlotlyLayout visualization in
            let sanitizedData := sanitizePlotlyData plotlyData in
            if negb (truthy sanitizedData) then Returns (ErrorPanel msg_failed_process)
            else
              let shown := if truthy title then title else JStr "Visualization" in
              match plotlyError st with
              | Some e => Returns (RetryPanel shown e)
              | None => Returns (Plot shown sanitizedData layout)
              end
      else Returns (D3Svg title).

(** [visualization] is a Plotly visualization without an [error] whose
    payload [plotlyData] is [data]. *)
Definition plotly_with (visualization data : JSValue) : Prop :=
  ∃ v, visualization = JObj v
       ∧ truthy (field v "error") = false
       ∧ field v "type" = JStr "plotly"
       ∧ field v "plotlyData" = data.


(** A [CustomEvent]: its type and its [detail]. *)
Definition event : Type := string * JSValue.

(** What the [try] block of [handleRetryVisualization] does with the
    response: the events it dispatches on [window] and the error it sets. *)
Definition retry_try `{Coercion} (r : response)
  : outcome (option plotly_error * list event) :=
  match r with
  | Rejected message => Throws (RequestError message)
  | Answered data =>
      let! visualizations := prop data "visualizations" in
      if truthy visualizations then
        let! len := prop visualizations "length" in
        if gt_zero len
        then Returns (None, [("visualization-updated"%string, data)])
        else Returns (Some RetryFailed, [])
      else Returns (Some RetryFailed, [])
  end.

(** The guard [!visualization || !visualization.sourceText]. *)
Definition cannot_retry (visualization : JSValue) : bool :=
  negb (truthy visualization)
  || match prop visualization "sourceText" with
     | Returns sourceText => negb (truthy sourceText)
     | Throws _ => true
     end.

(** [handleRetryVisualization], run to completion on the response [r]:
    the component's state afterwards and the events dispatched on
    [window]. *)
Definition handleRetryVisualization `{Coercion}
    (visualization : JSValue) (r : response) (st : state) : state * list event :=
  if cannot_retry visualization then (st, [])
  else
    let count := S (retryCount st) in
    match retry_try r with
    | Returns (e, events) => (mkState e false count, events)
    | Throws e => (mkState (Some (RetryError e)) false count, [])
    end.

End VisualizationDisplay.

(* ===================================================================== *)
(** * App.js *)
(* ===================================================================== *)

Module App.
Import JS.

Record state : Type := mkState {
  visualizationData : JSValue;
  selectedVisualization : nat
}.

Definition initial : state := mkState JNull 0.

(** [handleRetryUpdate(event)], on [event.detail]. *)
Definition handleRetryUpdate (detail : JSValue) (st : state) : state :=
  if truthy detail
     && match prop detail "visualizations" with
        | Returns visualizations => truthy visualizations
        | Throws _ => false
        end
  then mkState detail 0
  else st.

(** [handleDataProcessed(data)]. *)
Definition handleDataProcessed (data : JSValue) (st : state) : state :=
  mkState data 0.

(** The listeners the application registers on [window]. *)
Inductive listener : Type :=
| HandleRetryUpdate.

Definition run_listener (l : listener) (detail : JSValue) (st : state) : state :=
  match l with
  | HandleRetryUpdate => handleRetryUpdate detail st
  end.

(** [window] as an event target: the registered listeners with the event
    type each one was registered for, in registration order. *)
Definition window : Type := list (string * listener).

Definition addEventListener (type : string) (l : listener) (w : window) : window :=
  w ++ [(type, l)].

(** [window.dispatchEvent(e)]: the listeners registered for exactly the
    type of [e] run, in order. *)
Definition dispatchEvent (w : window) (e : string * JSValue) (st : state) : state :=
  foldl (λ st '(type, l), if String.eqb type e.1 then run_listener l e.2 st else st)
        st w.

(** The effect that [App] runs on mount. *)
Definition mount (w : window) : window :=
  addEventListener "visualization-update" HandleRetryUpdate w.

(** [x === 0]. *)
Definition strict_eq_zero (v : JSValue) : bool :=
  match v with
  | JNum q => (Qnum q =? 0)%Z
  | _ => false
  end.

(** [getCurrentVisualization()]. *)
Definition getCurrentVisualization (st : state) : outcome JSValue :=
  let data := visualizationData st in
  if negb (truthy data) then Returns JNull
  else
    let! visualizations := prop data "visualizations" in
    if negb (truthy visualizations) then Returns JNull
    else
      let! len := prop visualizations "length" in
      if strict_eq_zero len then Returns JNull
      else index visualizations (selectedVisualization st).

(** [visualizationData.visualizations[i]], [undefined] where there is no
    such thing to read. *)
Definition visualization_at (st : state) (i : nat) : JSValue :=
  match (let! visualizations := prop (visualizationData st) "visualizations" in
         index visualizations i) with
  | Returns v => v
  | Throws _ => JUndefined
  end.

(** [handleEditorUpdate(updates)]: the state it sets, or the exception
    that leaves the state as it was. *)
Definition handleEditorUpdate (updates : JSValue) (st : state) : outcome state :=
  let data := visualizationData st in
  if negb (truthy data) then Returns st
  else
    let! visualizations := prop data "visualizations" in
    if negb (truthy visualizations) then Returns st
    else
      let! copy := array_spread visualizations in
      let selected := selectedVisualization st in
      let current := default JUndefined (copy !! selected) in
      let updated := array_set copy selected (JObj (object_spread [current; updates])) in
      Returns (mkState (JObj (<["visualizations" := JArr updated]> (object_spread [data])))
                       selected).

(** The state after an event handler has run: an exception thrown before
    the handler sets the state leaves it unchanged. *)
Definition after (h : state → outcome state) (st : state) : state :=
  match h st with
  | Returns st' => st'
  | Throws _ => st
  end.

(** A manual retry from the display component, in an application whose
    [window] is [w]. *)
Definition manual_retry `{Coercion} (w : window) (visualization : JSValue)
    (r : response) (display : VisualizationDisplay.state) (app : state)
  : VisualizationDisplay.state * state :=
  let '(display', events) :=
    VisualizationDisplay.handleRetryVisualization visualization r display in
  (display', foldl (λ st e, dispatchEvent w e st) app events).

End App.

(* ===================================================================== *)
(** * components/ModelSelector.js *)
(* ===================================================================== *)

Module ModelSelector.
Import JS.

Record state : Type := mkState {
  models : JSValue;
  loading : bool;
  error : option string
}.

Definition initial : state := mkState (JArr []) true None.

Definition setModels (v : JSValue) (st : state) : state :=
  mkState v (loading st) (error st).
Definition setLoading (b : bool) (st : state) : state :=
  mkState (models st) b (error st).
Definition setError (e : string) (st : state) : state :=
  mkState (models st) (loading st) (Some e).

(** The argument of [onModelSelect] when the first model is selected:
    [response.data.models[0].name]. *)
Definition first_model_name (models : JSValue) : outcome JSValue :=
  let! first := index models 0 in
  prop first "name".

(** [fetchModels()], run to completion on the response [r]: the state
    afterwards and the arguments [onModelSelect] was called with. *)
Definition fetchModels `{Coercion} (selectedModel : JSValue) (r : response)
    (st : state) : state * list JSValue :=
  let st := setLoading true st in
  let '(st, selected) :=
    match r with
    | Rejected _ => (setError "Failed to fetch models" st, [])
    | Answered data =>
        let found :=
          if truthy data
          then match prop data "models" with
               | Returns models => models
               | Throws _ => JUndefined
               end
          else data in
        if truthy found then
          let st := setModels found st in
          let chosen :=
            if negb (truthy selectedModel) then
              let! len := prop found "length" in
              if gt_zero len
              then let! name := first_model_name found in Returns [name]
              else Returns []
            else Returns [] in
          match chosen with
          | Returns calls => (st, calls)
          | Throws _ => (setError "Failed to fetch models" st, [])
          end
        else (setError "No models found" st, [])
    end in
  (setLoading false st, selected).

(** The line under the select box. *)
Inductive notice : Type :=
| ModelsAvailable (count : JSValue)  (* "{models.length} models available" *)
| NoModelsFound.  (* "No models found. Please make sure Ollama is running." *)

Inductive view : Type :=
| Loading
| ErrorPanel (message : string)
| Selector (options : list (JSValue * JSValue)) (info : notice).

(** One [<option>] of [models.map]: the model's [name] and [size]. *)
Definition option_of (model : JSValue) : outcome (JSValue * JSValue) :=
  let! name := prop model "name" in
  let! size := prop model "size" in
  Returns (name, size).

Fixpoint options_of (models : list JSValue) : outcome (list (JSValue * JSValue)) :=
  match models with
  | [] => Returns []
  | model :: rest =>
      let! o := option_of model in
      let! os := options_of rest in
      Returns (o :: os)
  end.

(** [if (error)]: the message that is shown, if any. *)
Definition shown_error (st : state) : option string :=
  match error st with
  | Some e => if String.eqb e "" then None else Some e
  | None => None
  end.

(** The render of the component; [models.map] exists on arrays only. *)
Definition render `{Coercion} (st : state) : outcome view :=
  if loading st then Returns Loading
  else match shown_error st with
       | Some e => Returns (ErrorPanel e)
       | None =>
           match models st with
           | JArr l =>
               let! options := options_of l in
               let len := length_value (length l) in
               Returns (Selector options
                          (if gt_zero len then ModelsAvailable len else NoModelsFound))
           | _ => Throws TypeError
           end
       end.

End ModelSelector.

(* ===================================================================== *)
(** * services/LoggingService.js *)
(* ===================================================================== *)

Module LoggingService.
Import JS.

Inductive method : Type :=
| Log
| Error
| Warn
| Info.

(** The level each overridden console method queues its message with. *)
Definition level_of (m : method) : string :=
  match m with
  | Log => "INFO"
  | Error => "ERROR"
  | Warn => "WARN"
  | Info => "INFO"
  end.

Record LogEntry : Type := mkEntry {
  level : string;
  message : string;
  retries : nat
}.

Definition maxRetries : nat := 3.

(** [haystack.includes(needle)]. *)
Definition includes (haystack needle : string) : bool :=
  match String.index 0 needle haystack with
  | Some _ => true
  | None => false
  end.

Section Service.

(** The arguments of a console call are arbitrary values; [arg_to_string]
    is the conversion that [Array.prototype.join] applies to one of them:
    the string it contributes, or the exception that its conversion
    throws. *)
Context {Arg : Type} (arg_to_string : Arg → outcome string).

(** What reaches the browser's own console. *)
Inductive console_line : Type :=
| Forwarded (m : method) (args : list Arg)
    (* originalConsole<m>.apply(console, args) *)
| SendError (reason : string)
    (* originalConsoleError('Error sending log to server:', error.message) *)
| GaveUp (message : string).
    (* originalConsoleWarn(`Failed to send log after 3 attempts: ...`) *)

(** A POST to the log endpoint.  [target] is ghost: the rank of the entry
    it carries among all entries ever queued. *)
Record post : Type := mkPost {
  target : nat;
  post_level : string;
  post_message : string
}.

(** The service's fields, and around them what it does to its
    environment: the console lines written, the requests issued, the
    timers set by [setTimeout] and not yet fired.  [shifted] is ghost: the
    number of entries removed from the queue so far, which is the rank of
    the entry at the head. *)
Record state : Type := mkState {
  logQueue : list LogEntry;
  isProcessingQueue : bool;
  console : list console_line;
  posts : list post;
  timers : nat;
  shifted : nat
}.

Definition initial : state := mkState [] false [] [] 0 0.

(** [processQueue()] up to its [await]: either it returns at once, or it
    takes the flag and issues the request for the head of the queue. *)
Definition processQueue (s : state) : state :=
  if isProcessingQueue s then s
  else match logQueue s with
       | [] => s
       | logEntry :: _ =>
           mkState (logQueue s) true (console s)
                   (posts s ++ [mkPost (shifted s) (level logEntry) (message logEntry)])
                   (timers s) (shifted s)
       end.

(** The [finally] block of [processQueue]. *)
Definition finally (queue : list LogEntry) (console : list console_line)
    (shifted : nat) (s : state) : state :=
  mkState queue false console (posts s)
          (match queue with [] => timers s | _ :: _ => S (timers s) end)
          shifted.

(** [processQueue()] from its [await] on, when the request has settled:
    [None] is success, [Some reason] the message of the error.  A
    [TypeError] raised inside the [catch] block rejects the promise that
    [processQueue] returned. *)
Definition resume (failure : option string) (s : state) : outcome state :=
  match failure with
  | None =>
      Returns (finally (tail (logQueue s)) (console s)
                       (match logQueue s with [] => shifted s | _ => S (shifted s) end) s)
  | Some reason =>
      let console := console s ++ [SendError reason] in
      match logQueue s with
      | [] => Throws TypeError
      | logEntry :: rest =>
          let logEntry := mkEntry (level logEntry) (message logEntry) (S (retries logEntry)) in
          if (maxRetries <=? retries logEntry)%nat
          then Returns (finally rest (console ++ [GaveUp (message logEntry)])
                                (S (shifted s)) s)
          else Returns (finally (logEntry :: rest) console (shifted s) s)
      end
  end.

(** [queueLog(level, message)]. *)
Definition queueLog (level message : string) (s : state) : state :=
  if includes message "Error sending log to server" then s
  else processQueue
         (mkState (logQueue s ++ [mkEntry level message 0]) (isProcessingQueue s)
                  (console s) (posts s) (timers s) (shifted s)).

(** [args.join(' ')]: the arguments are converted from left to right, and
    the first conversion that throws ends the call. *)
Fixpoint strings (args : list Arg) : outcome (list string) :=
  match args with
  | [] => Returns []
  | arg :: args =>
      let! x := arg_to_string arg in
      let! xs := strings args in
      Returns (x :: xs)
  end.

Definition join (args : list Arg) : outcome string :=
  let! xs := strings args in
  Returns (String.concat " " xs).

(** The overridden [console.log], [console.error], [console.warn] and
    [console.info]: the service after the call, and what the caller gets.
    The original method has run when [args.join(' ')] is evaluated, so an
    exception of the conversion leaves the forwarded line and queues
    nothing. *)
Definition console_call (m : method) (args : list Arg) (s : state)
  : state * outcome unit :=
  let s := mkState (logQueue s) (isProcessingQueue s) (console s ++ [Forwarded m args])
                   (posts s) (timers s) (shifted s) in
  match join args with
  | Returns message => (queueLog (level_of m) message s, Returns tt)
  | Throws e => (s, Throws e)
  end.

(** A timer set by the [finally] block fires. *)
Definition timer_fired (s : state) : state :=
  processQueue
    (mkState (logQueue s) (isProcessingQueue s) (console s) (posts s)
             (pred (timers s)) (shifted s)).

(** What can happen to the service: the application calls a console
    method, the request in flight settles, a pending timer fires. *)
Inductive step : state → state → Prop :=
| step_call m args s :
    step s (console_call m args s).1
| step_settled failure s s' :
    isProcessingQueue s = true →
    resume failure s = Returns s' →
    step s s'
| step_timer s :
    (0 < timers s)%nat →
    step s (timer_fired s).

Inductive reachable : state → Prop :=
| reachable_initial : reachable initial
| reachable_step s s' : reachable s → step s s' → reachable s'.

(** The steps that are left to the service when the application logs
    nothing more and the server stays unreachable: the request in flight
    fails, a pending timer fires. *)
Inductive down_step : state → state → Prop :=
| down_settled reason s s' :
    isProcessingQueue s = true →
    resume (Some reason) s = Returns s' →
    down_step s s'
| down_timer s :
    (0 < timers s)%nat →
    down_step s (timer_fired s).

(** The application logs while the service is at work: a console call,
    then the timer of an earlier [finally] block if one is pending, then
    the request in flight settles, if there is one. *)
Definition logging_round (failure : option string) (m : method) (args : list Arg)
    (s : state) : outcome state :=
  let s := (console_call m args s).1 in
  let s := if (0 <? timers s)%nat then timer_fired s else s in
  if isProcessingQueue s then resume failure s else Returns s.

Fixpoint logging_rounds (n : nat) (failure : option string) (m : method)
    (args : list Arg) (s : state) : outcome state :=
  match n with
  | 0 => Returns s
  | S n =>
      let! s := logging_round failure m args s in
      logging_rounds n failure m args s
  end.

(** The requests that the entries of a queue still have ahead of them. *)
Fixpoint remaining (queue : list LogEntry) : nat :=
  match queue with
  | [] => 0
  | e :: queue => (maxRetries - retries e) + remaining queue
  end.

(** How often the entry of rank [id] has been sent. *)
Definition attempts (id : nat) (sent : list post) : nat :=
  length (filter (λ p, target p = id) sent).

(** What holds of the service in every state it can be in.  The flag is
    only up while the entry at the head is being sent; only the head has
    failed attempts behind it, fewer than [maxRetries]; and the requests
    issued so far are accounted for by the retry counter of the head, with
    none for the entries behind it. *)
Record invariant (s : state) : Prop := mkInvariant {
  inv_flag : isProcessingQueue s = true → logQueue s ≠ [];
  inv_retries : Forall (λ e, retries e < maxRetries) (logQueue s);
  inv_waiting : Forall (λ e, retries e = 0) (tail (logQueue s));
  inv_head : attempts (shifted s) (posts s)
             = match logQueue s with
               | [] => 0
               | e :: _ => retries e + (if isProcessingQueue s then 1 else 0)
               end;
  inv_future : ∀ id, shifted s < id → attempts id (posts s) = 0;
  inv_bound : ∀ id, attempts id (posts s) ≤ maxRetries
}.

End Service.

End LoggingService.

(* ===================================================================== *)
(** * sanitizePlotlyData on a store of objects *)
(* ===================================================================== *)

(** JavaScript objects have an identity, and an assignment to a property
    changes the object for everyone who holds it.  This module runs
    [sanitizePlotlyData] once more with the traces as locations in a
    store, so that "a copy" and "the original" are different things: the
    object literal [{ ...trace }] allocates, and every later assignment
    writes to what [sanitizedTrace] refers to. *)
Module Store.
Import JS.

Definition loc : Type := nat.

(** Evaluating an object literal: a location that is not in use. *)
Definition alloc (v : JSValue) (h : gmap loc JSValue) : loc * gmap loc JSValue :=
  let l := fresh (dom h) in (l, <[l := v]> h).

Definition deref (h : gmap loc JSValue) (l : loc) : JSValue :=
  default JUndefined (h !! l).

(** [l.k], for [l] known to hold an object. *)
Definition read (h : gmap loc JSValue) (l : loc) (k : string) : JSValue :=
  field (own_props (deref h l)) k.

(** [l.k = v]. *)
Definition write (l : loc) (k : string) (v : JSValue) (h : gmap loc JSValue)
  : gmap loc JSValue :=
  alter (λ o, match o with
              | JObj props => JObj (<[k := v]> props)
              | _ => o
              end) l h.

Definition promote (l : loc) (k : string) (h : gmap loc JSValue) : gmap loc JSValue :=
  if truthy (read h l k) && negb (isArray (read h l k))
  then write l k (JArr [read h l k]) h
  else h.

(** The callback of [data.map]: the location it returns, and the store
    afterwards. *)
Definition sanitizeTrace (trace : loc) (h : gmap loc JSValue) : loc * gmap loc JSValue :=
  let '(sanitizedTrace, h) := alloc (JObj (object_spread [deref h trace])) h in
  let h := if negb (truthy (read h sanitizedTrace "type"))
           then write sanitizedTrace "type" (JStr "scatter") h else h in
  let h := if strict_eq_str (read h sanitizedTrace "type") "scatter"
              || strict_eq_str (read h sanitizedTrace "type") "bar"
           then promote sanitizedTrace "y" (promote sanitizedTrace "x" h) else h in
  let h := if strict_eq_str (read h sanitizedTrace "type") "scatter"
              && negb (truthy (read h sanitizedTrace "mode"))
           then write sanitizedTrace "mode" (JStr "lines+markers") h else h in
  (sanitizedTrace, h).

(** [data.map(callback)] on an array of traces. *)
Fixpoint sanitizePlotlyData (data : list loc) (h : gmap loc JSValue)
  : list loc * gmap loc JSValue :=
  match data with
  | [] => ([], h)
  | trace :: rest =>
      let '(l, h) := sanitizeTrace trace h in
      let '(ls, h) := sanitizePlotlyData rest h in
      (l :: ls, h)
  end.

End Store.

(* ===================================================================== *)
(** * App.js: the selector and the flow of events *)
(* ===================================================================== *)

Module VisualizationSelector.
Import JS.

(** One [<div className="visualization-option ...">] of the element
    tree: its index (the [key] and the argument of [onSelect]), whether it
    carries the class [selected], and the children [{viz.title}] and
    [{viz.type}], which are handed to React as the values they are. *)
Record option_view : Type := mkOption {
  position : nat;
  selected : bool;
  title : JSValue;
  type : JSValue
}.

Definition option_of (selectedIndex index : nat) (viz : JSValue) : outcome option_view :=
  let! title := prop viz "title" in
  let! type := prop viz "type" in
  Returns (mkOption index (selectedIndex =? index)%nat title type).

(** [visualizations.map((viz, index) => ...)], from [index] on. *)
Fixpoint options_from (selectedIndex index : nat) (visualizations : list JSValue)
  : outcome (list option_view) :=
  match visualizations with
  | [] => Returns []
  | viz :: rest =>
      let! o := option_of selectedIndex index viz in
      let! os := options_from selectedIndex (S index) rest in
      Returns (o :: os)
  end.

(** The function of the component, up to the element tree it returns;
    [map] exists on arrays only. *)
Definition render (visualizations : JSValue) (selectedIndex : nat)
  : outcome (list option_view) :=
  match visualizations with
  | JArr l => options_from selectedIndex 0 l
  | _ => Throws TypeError
  end.

End VisualizationSelector.

Module AppFlow.
Import JS.

(** [onSelect={setSelectedVisualization}]. *)
Definition onSelect (index : nat) (st : App.state) : App.state :=
  App.mkState (App.visualizationData st) index.

(** The array that [App] hands to the selector, which it mounts under
    [visualizationData && visualizationData.visualizations]; the selector
    renders arrays only. *)
Definition listed (st : App.state) : option (list JSValue) :=
  if truthy (App.visualizationData st) then
    match prop (App.visualizationData st) "visualizations" with
    | Returns (JArr l) => Some l
    | _ => None
    end
  else None.

(** [getCurrentVisualization()?.type === 'plotly']. *)
Definition current_is_plotly (st : App.state) : bool :=
  match App.getCurrentVisualization st with
  | Returns JNull | Returns JUndefined => false
  | Returns current =>
      match prop current "type" with
      | Returns type => strict_eq_str type "plotly"
      | Throws _ => false
      end
  | Throws _ => false
  end.

(** The condition under which [App] mounts the [PlotlyEditor]. *)
Definition editor_mounted (st : App.state) : bool :=
  truthy (App.visualizationData st) && current_is_plotly st.

(** What can happen to the application's state: the data input delivers
    a dataset, a retry event reaches the listener, the user clicks one of
    the options that the selector lists, the mounted editor sends an
    update. *)
Inductive step : App.state → App.state → Prop :=
| step_data data st :
    step st (App.handleDataProcessed data st)
| step_retry detail st :
    step st (App.handleRetryUpdate detail st)
| step_select index l st :
    listed st = Some l → index < length l →
    step st (onSelect index st)
| step_update updates l st :
    listed st = Some l → editor_mounted st = true →
    step st (App.after (App.handleEditorUpdate updates) st).

Inductive reachable : App.state → Prop :=
| reachable_initial : reachable App.initial
| reachable_step st st' : reachable st → step st st' → reachable st'.

End AppFlow.

(* ===================================================================== *)
(** * components/DataInput.js *)
(* ===================================================================== *)

Module DataInput.
Import JS.

(** The component's [error] string. *)
Inductive input_error : Type :=
| NoError                       (* '' *)
| EnterText                     (* 'Please enter some text data' *)
| NoPreviousText                (* 'No previous text to retry' *)
| ProcessingFile (e : JSError)  (* `Error processing file: ${err.message}` *)
| ProcessingText (e : JSError)  (* `Error processing text: ${err.message}` *)
| Retrying (e : JSError).       (* `Error retrying visualization: ${err.message}` *)

Record state : Type := mkState {
  text : string;
  lastProcessedText : string;
  error : input_error;
  serverStatus : JSValue;
  selectedModel : JSValue;
  isProcessing : bool
}.

(** What a handler does to its parent: the arguments of its calls of
    [onDataProcessed] and of [setLoading], in order. *)
Record effects : Type := mkEffects {
  delivered : list JSValue;
  loading : list bool
}.

(** [{ ...viz, sourceText: text }]. *)
Definition tag (sourceText : string) (viz : JSValue) : JSValue :=
  JObj (<["sourceText" := JStr sourceText]> (object_spread [viz])).

(** The [try] block of [processTextData] and of
    [handleRetryLastVisualization] after the request: [response.data] with
    the source text added to it and to each of its visualizations. *)
Definition with_source (sourceText : string) (data : JSValue) : outcome JSValue :=
  let responseWithSource := <["sourceText" := JStr sourceText]> (object_spread [data]) in
  let! visualizations := prop data "visualizations" in
  if truthy visualizations then
    match visualizations with
    | JArr l =>
        Returns (JObj (<["visualizations" := JArr (tag sourceText <$> l)]>
                         responseWithSource))
    | _ => Throws TypeError
    end
  else Returns (JObj responseWithSource).

(** How the request settles into what the [try] block delivers. *)
Definition settle (sourceText : string) (r : response) : outcome JSValue :=
  match r with
  | Answered data => with_source sourceText data
  | Rejected message => Throws (RequestError message)
  end.

Section Handlers.

(** [blank s] is [!s.trim()]: the string is empty or all white space. *)
Context (blank : string → bool).

(** [processTextData()], run to completion on the response [r]. *)
Definition processTextData (r : response) (st : state) : state * effects :=
  if blank (text st)
  then (mkState (text st) (lastProcessedText st) EnterText (serverStatus st)
                (selectedModel st) (isProcessing st),
        mkEffects [] [])
  else
    match settle (text st) r with
    | Returns responseWithSource =>
        (mkState (text st) (text st) NoError (serverStatus st) (selectedModel st) false,
         mkEffects [responseWithSource] [true; false])
    | Throws e =>
        (mkState (text st) (text st) (ProcessingText e) (serverStatus st)
                 (selectedModel st) false,
         mkEffects [] [true; false])
    end.

End Handlers.

(** [handleRetryLastVisualization()], run to completion on [r]. *)
Definition handleRetryLastVisualization (r : response) (st : state) : state * effects :=
  if negb (truthy (JStr (lastProcessedText st)))
  then (mkState (text st) (lastProcessedText st) NoPreviousText (serverStatus st)
                (selectedModel st) (isProcessing st),
        mkEffects [] [])
  else
    match settle (lastProcessedText st) r with
    | Returns responseWithSource =>
        (mkState (text st) (lastProcessedText st) NoError (serverStatus st)
                 (selectedModel st) false,
         mkEffects [responseWithSource] [true; false])
    | Throws e =>
        (mkState (text st) (lastProcessedText st) (Retrying e) (serverStatus st)
                 (selectedModel st) false,
         mkEffects [] [true; false])
    end.

(** [checkServerStatus()]: [status] is how the request to [/api/status]
    settles, [models] how the fallback request to [/api/models] does. *)
Definition checkServerStatus `{Coercion} (status models : response) : JSValue :=
  match status with
  | Answered data => data
  | Rejected _ =>
      match models with
      | Answered data =>
          let running :=
            truthy data
            && match prop data "length" with
               | Returns len => gt_zero len
               | Throws _ => false
               end in
          JObj {[ "server" := JStr "ok";
                  "ollama" := JStr (if running then "ok" else "error") ]}
      | Rejected _ =>
          JObj {[ "server" := JStr "error"; "ollama" := JStr "unknown" ]}
      end
  end.

(** The two lines of the status block, shown when [serverStatus] is
    truthy: whether each says "Connected" / "Running". *)
Definition status_view (serverStatus : JSValue) : option (bool * bool) :=
  if truthy serverStatus then
    match prop serverStatus "server", prop serverStatus "ollama" with
    | Returns server, Returns ollama =>
        Some (strict_eq_str server "ok", strict_eq_str ollama "ok")
    | _, _ => None
    end
  else None.

(** The application after a handler of the data input has run: each
    delivered dataset goes through [handleDataProcessed]. *)
Definition deliver (fx : effects) (app : App.state) : App.state :=
  foldl (λ app data, App.handleDataProcessed data app) app (delivered fx).

End DataInput.

(* ===================================================================== *)
(** * components/PlotlyEditor.js *)
(* ===================================================================== *)

Module PlotlyEditor.
Import JS.

Inductive editor_error : Type :=
| InvalidJSON                   (* `Invalid JSON: ${err.message}`, from JSON.parse *)
| UpdateFailed (e : JSError).   (* the same message, for an exception of onUpdate *)

Record state : Type := mkState {
  dataJson : string;
  layoutJson : string;
  error : option editor_error;
  isEditing : bool;
  autoApply : bool
}.

Section Parse.

(** [JSON.parse]; [None] is its [SyntaxError]. *)
Context (parse : string → option JSValue).

(** The [try] block that [handleApplyChanges] shares with the change
    handlers: both texts are parsed, then [onUpdate] is called, and an
    exception from any of the three ends in the [catch]. *)
Definition send (dataJson layoutJson : string) (app : App.state)
  : editor_error + App.state :=
  match parse dataJson with
  | None => inl InvalidJSON
  | Some parsedData =>
      match parse layoutJson with
      | None => inl InvalidJSON
      | Some parsedLayout =>
          match App.handleEditorUpdate
                  (JObj {[ "plotlyData" := parsedData; "plotlyLayout" := parsedLayout ]})
                  app with
          | Returns app' => inr app'
          | Throws e => inl (UpdateFailed e)
          end
      end
  end.

(** [handleApplyChanges()], with [onUpdate] the application's
    [handleEditorUpdate]. *)
Definition handleApplyChanges (st : state) (app : App.state) : state * App.state :=
  match send (dataJson st) (layoutJson st) app with
  | inr app' =>
      (mkState (dataJson st) (layoutJson st) None false (autoApply st), app')
  | inl e =>
      (mkState (dataJson st) (layoutJson st) (Some e) (isEditing st) (autoApply st), app)
  end.

End Parse.

End PlotlyEditor.

(* ===================================================================== *)
(** * services/LoggingService.js: runs of the service *)
(* ===================================================================== *)

Module LoggingRuns.
Import JS LoggingService.

Section Runs.
Context {Arg : Type}.

(** The console calls that the application has made: the lines that the
    overridden methods forwarded. *)
Fixpoint forwarded (lines : list (@console_line Arg)) : nat :=
  match lines with
  | [] => 0
  | Forwarded _ _ :: lines => S (forwarded lines)
  | _ :: lines => forwarded lines
  end.

(** The server answers and the application logs nothing more: the
    request in flight succeeds, and if the queue is not empty the timer
    that the [finally] block has set fires. *)
Definition succeeding_round (s : @state Arg) : outcome (@state Arg) :=
  let! s := resume None s in
  Returns (match logQueue s with
           | [] => s
           | _ :: _ => timer_fired s
           end).

Fixpoint succeeding_rounds (n : nat) (s : @state Arg) : outcome (@state Arg) :=
  match n with
  | 0 => Returns s
  | S n =>
      let! s := succeeding_round s in
      succeeding_rounds n s
  end.

(** The requests issued so far, set against the messages taken into the
    queue and the console calls made: every message has [maxRetries]
    requests to spend, the ones not yet spent are [remaining], and the
    request in flight is spent before its outcome is counted. *)
Definition accounted (s : @state Arg) : Prop :=
  length (posts s) + remaining (logQueue s)
  ≤ maxRetries * (shifted s + length (logQueue s))
    + (if isProcessingQueue s then 1 else 0)
  ∧ shifted s + length (logQueue s) ≤ forwarded (console s).

(** What a request carries, and what an entry would be sent as. *)
Definition sent_as (p : post) : string * string := (post_level p, post_message p).
Definition to_send (e : LogEntry) : string * string := (level e, message e).

End Runs.

End LoggingRuns.

(* ===================================================================== *)
(** * Properties *)
(* ===================================================================== *)

Import JS.

(** ** Objects and spread *)

Lemma field_insert (o : gmap string JSValue) (k k' : string) (v : JSValue) :
  field (<[k := v]> o) k' = if decide (k = k') then v else field o k'.
Proof.
  unfold field. rewrite lookup_insert. by case_decide.
Qed.

Lemma field_insert_eq (o : gmap string JSValue) (k : string) (v : JSValue) :
  field (<[k := v]> o) k = v.
Proof. rewrite field_insert. by rewrite decide_True. Qed.

Lemma field_insert_ne (o : gmap string JSValue) (k k' : string) (v : JSValue) :
  k ≠ k' → field (<[k := v]> o) k' = field o k'.
Proof. intros. rewrite field_insert. by rewrite decide_False. Qed.

Lemma object_spread_one (v : JSValue) : object_spread [v] = own_props v.
Proof. unfold object_spread, spread. simpl. apply (right_id ∅ (∪)). Qed.

Lemma object_spread_two (a b : JSValue) :
  object_spread [a; b] = own_props b ∪ own_props a.
Proof.
  unfold object_spread, spread. simpl. by rewrite (right_id ∅ (∪)).
Qed.

Lemma lookup_spread_Some (t : gmap string JSValue) (src : JSValue) (k : string) (v : JSValue) :
  own_props src !! k = Some v → spread t src !! k = Some v.
Proof. intros. unfold spread. by apply lookup_union_Some_l. Qed.

Lemma lookup_spread_None (t : gmap string JSValue) (src : JSValue) (k : string) :
  own_props src !! k = None → spread t src !! k = t !! k.
Proof. intros. unfold spread. by apply lookup_union_r. Qed.

Lemma prop_object (o : gmap string JSValue) (k : string) :
  prop (JObj o) k = Returns (field o k).
Proof. reflexivity. Qed.

(** A property read throws on [null] and [undefined] only. *)
Lemma prop_returns (v : JSValue) (k : string) :
  v ≠ JUndefined → v ≠ JNull → ∃ x, prop v k = Returns x.
Proof. destruct v; intros; try done; simpl; eauto. Qed.

Lemma truthy_not_nullish (v : JSValue) :
  truthy v = true → v ≠ JUndefined ∧ v ≠ JNull.
Proof. by destruct v. Qed.

(** ** getPlotlyLayout *)

(** C5.  Whatever the visualization, the layout handed to the plot is the
    candidate's [plotlyLayout] laid over the default layout: a key that
    [plotlyLayout] supplies keeps the value it has there, and only a key
    it does not supply takes its value (title, autosize, margin) from the
    defaults. *)
Theorem getPlotlyLayout_explicit_wins (visualization : JSValue) :
  visualization ≠ JUndefined → visualization ≠ JNull →
  ∃ layout title plotlyLayout,
    VisualizationDisplay.getPlotlyLayout visualization = Returns layout
    ∧ prop visualization "title" = Returns title
    ∧ prop visualization "plotlyLayout" = Returns plotlyLayout
    ∧ (∀ k v, own_props plotlyLayout !! k = Some v → layout !! k = Some v)
    ∧ (∀ k, own_props plotlyLayout !! k = None →
            layout !! k = VisualizationDisplay.defaultLayout title !! k).
Proof.
  intros Hu Hn.
  destruct (prop_returns visualization "title" Hu Hn) as [title Ht].
  destruct (prop_returns visualization "plotlyLayout" Hu Hn) as [pl Hp].
  unfold VisualizationDisplay.getPlotlyLayout. rewrite Ht, Hp. simpl.
  destruct (truthy pl) eqn:Htr.
  - eexists _, title, pl. split; [reflexivity|]. do 2 (split; [reflexivity|]).
    rewrite object_spread_two. simpl. split.
    + intros k v Hk. by apply lookup_union_Some_l.
    + intros k Hk. by apply lookup_union_r.
  - eexists _, title, pl. split; [reflexivity|]. do 2 (split; [reflexivity|]).
    assert (own_props pl = ∅) as ->.
    { destruct pl as [| |b|q|s|l|o]; try done. simpl in Htr.
      destruct s; [done | discriminate]. }
    split; [intros k v Hk; by rewrite lookup_empty in Hk | done].
Qed.

Lemma getPlotlyLayout_explicit_wins_witness :
  let visualization :=
    JObj {[ "title" := JStr "Sales";
            "plotlyLayout" := JObj {[ "title" := JStr "Mine"; "height" := JInt 300 ]} ]} in
  ∃ layout,
    VisualizationDisplay.getPlotlyLayout visualization = Returns layout
    ∧ layout !! "title" = Some (JStr "Mine")
    ∧ layout !! "height" = Some (JInt 300)
    ∧ layout !! "autosize" = Some (JBool true).
Proof.
  intros visualization.
  destruct (getPlotlyLayout_explicit_wins visualization)
    as (layout & title & pl & Hl & Ht & Hp & Hkeep & Hdef); [done | done |].
  exists layout. split; [exact Hl|].
  injection Ht as <-. injection Hp as <-.
  split; [by apply Hkeep|]. split; [by apply Hkeep|].
  rewrite Hdef; reflexivity.
Defined.

(** ** sanitizePlotlyData *)

Section Sanitize.
Import VisualizationDisplay.

Lemma promote_settled (k : string) (t : gmap string JSValue) :
  settled k t → promote k t = t.
Proof. unfold settled, promote. by intros ->. Qed.

Lemma field_promote_ne (k k' : string) (t : gmap string JSValue) :
  k ≠ k' → field (promote k t) k' = field t k'.
Proof.
  intros. unfold promote. case_match; [|done]. by rewrite field_insert_ne.
Qed.

Lemma settled_promote (k : string) (t : gmap string JSValue) :
  settled k (promote k t).
Proof.
  unfold promote. destruct (truthy (field t k) && negb (isArray (field t k))) eqn:E.
  - unfold settled. by rewrite field_insert_eq.
  - exact E.
Qed.

Lemma settled_promote_ne (k k' : string) (t : gmap string JSValue) :
  k ≠ k' → settled k' t → settled k' (promote k t).
Proof. intros ? Hs. unfold settled. by rewrite field_promote_ne. Qed.

Lemma settled_insert_ne (k k' : string) (v : JSValue) (t : gmap string JSValue) :
  k ≠ k' → settled k' t → settled k' (<[k := v]> t).
Proof. intros ? Hs. unfold settled. by rewrite field_insert_ne. Qed.

Lemma sanitizeTrace_steps (trace : JSValue) :
  sanitizeTrace trace = ensure_mode (convert_xy (ensure_type (own_props trace))).
Proof. unfold sanitizeTrace. by rewrite object_spread_one. Qed.

Lemma ensure_type_truthy (t : gmap string JSValue) :
  truthy (field (ensure_type t) "type") = true.
Proof.
  unfold ensure_type. destruct (truthy (field t "type")) eqn:E; simpl; [done|].
  by rewrite field_insert_eq.
Qed.

Lemma field_convert_xy_type (t : gmap string JSValue) :
  field (convert_xy t) "type" = field t "type".
Proof.
  unfold convert_xy. case_match; [|done]. by rewrite !field_promote_ne.
Qed.

Lemma field_ensure_mode_ne (t : gmap string JSValue) (k : string) :
  k ≠ "mode" → field (ensure_mode t) k = field t k.
Proof.
  intros. unfold ensure_mode. case_match; [|done]. by rewrite field_insert_ne.
Qed.

(** The type of the repaired trace: the trace's own when that is truthy,
    ["scatter"] otherwise. *)
Lemma sanitizeTrace_type (trace : JSValue) :
  field (sanitizeTrace trace) "type"
  = if truthy (field (own_props trace) "type")
    then field (own_props trace) "type" else JStr "scatter".
Proof.
  rewrite sanitizeTrace_steps, field_ensure_mode_ne, field_convert_xy_type by done.
  unfold ensure_type. destruct (truthy _); simpl; [done|]. by rewrite field_insert_eq.
Qed.

Lemma ensure_type_fixed (t : gmap string JSValue) :
  truthy (field t "type") = true → ensure_type t = t.
Proof. unfold ensure_type. by intros ->. Qed.

Lemma convert_xy_fixed (t : gmap string JSValue) :
  (strict_eq_str (field t "type") "scatter" || strict_eq_str (field t "type") "bar" = true →
   settled "x" t ∧ settled "y" t) →
  convert_xy t = t.
Proof.
  unfold convert_xy. intros H. case_match; [|done].
  destruct H as [Hx Hy]; [done|]. by rewrite (promote_settled "x"), promote_settled.
Qed.

Lemma ensure_mode_fixed (t : gmap string JSValue) :
  (strict_eq_str (field t "type") "scatter" = true → truthy (field t "mode") = true) →
  ensure_mode t = t.
Proof.
  unfold ensure_mode. intros H.
  destruct (strict_eq_str (field t "type") "scatter"); [|done].
  by rewrite H.
Qed.

(** A repaired trace is a fixed point of the repair. *)
Lemma sanitizeTrace_fixed (trace : JSValue) :
  sanitizeTrace (JObj (sanitizeTrace trace)) = sanitizeTrace trace.
Proof.
  rewrite (sanitizeTrace_steps (JObj _)). simpl.
  rewrite sanitizeTrace_steps.
  set (t1 := ensure_type (own_props trace)).
  set (t2 := convert_xy t1).
  set (t3 := ensure_mode t2).
  assert (field t3 "type" = field t1 "type") as Hty.
  { unfold t3, t2. by rewrite field_ensure_mode_ne, field_convert_xy_type. }
  rewrite ensure_type_fixed; last by rewrite Hty; apply ensure_type_truthy.
  rewrite convert_xy_fixed.
  - apply ensure_mode_fixed. unfold t3, ensure_mode.
    destruct (strict_eq_str (field t2 "type") "scatter") eqn:Hs; simpl.
    + destruct (truthy (field t2 "mode")) eqn:Hm; simpl.
      * by rewrite Hm.
      * by rewrite field_insert_eq.
    + by rewrite Hs.
  - rewrite Hty. intros Hsb.
    assert (settled "x" t2 ∧ settled "y" t2) as [Hx Hy].
    { unfold t2, convert_xy. rewrite Hsb. split.
      - apply settled_promote_ne; [done|]. apply settled_promote.
      - apply settled_promote. }
    unfold t3, ensure_mode. case_match; [|done].
    split; by apply settled_insert_ne.
Qed.

(** A scatter trace given as single numbers: both coordinates become
    one-element arrays, and the type and the mode are filled in. *)
Example sanitize_scalar_xy :
  sanitizePlotlyData (JArr [JObj {[ "x" := JInt 5; "y" := JInt 3 ]}])
  = JArr [JObj {[ "x" := JArr [JInt 5]; "y" := JArr [JInt 3];
                  "type" := JStr "scatter"; "mode" := JStr "lines+markers" ]}].
Proof. vm_compute. reflexivity. Qed.

(** A coordinate that is the number [0] is falsy and stays a number. *)
Example sanitize_zero_x :
  sanitizePlotlyData (JArr [JObj {[ "type" := JStr "bar"; "x" := JInt 0 ]}])
  = JArr [JObj {[ "type" := JStr "bar"; "x" := JInt 0 ]}].
Proof. vm_compute. reflexivity. Qed.

(** A trace that is not an object is copied like any other value: a
    string contributes its characters, [null] nothing. *)
Example sanitize_non_objects :
  sanitizePlotlyData (JArr [JStr "ab"; JNull])
  = JArr [JObj {[ "0" := JStr "a"; "1" := JStr "b";
                  "type" := JStr "scatter"; "mode" := JStr "lines+markers" ]};
          JObj {[ "type" := JStr "scatter"; "mode" := JStr "lines+markers" ]}].
Proof. vm_compute. reflexivity. Qed.

End Sanitize.

(** C6.  The repair step is idempotent: sanitizing the output of
    [sanitizePlotlyData] once more returns it unchanged, for an array of
    candidate traces and for every other argument. *)
Theorem sanitizePlotlyData_idempotent (x : JSValue) :
  VisualizationDisplay.sanitizePlotlyData (VisualizationDisplay.sanitizePlotlyData x)
  = VisualizationDisplay.sanitizePlotlyData x.
Proof.
  destruct x as [| |b|q|s|traces|o]; try reflexivity.
  simpl. f_equal. rewrite <- list_fmap_compose.
  apply list_fmap_ext. intros i trace _. simpl.
  by rewrite sanitizeTrace_fixed.
Qed.

(** ** isValidPlotlyData and the render pipeline *)

Section Pipeline.
Import VisualizationDisplay.

Lemma validTraces_true (traces : list JSValue) :
  validTraces traces = Returns true ↔ Forall (λ t, validTrace t = Returns true) traces.
Proof.
  induction traces as [|t traces IH]; simpl.
  - split; [constructor | done].
  - rewrite Forall_cons, <- IH.
    destruct (validTrace t) as [[]|e]; simpl; intuition congruence.
Qed.

Lemma isValidPlotlyData_true (traces : list JSValue) :
  isValidPlotlyData (JArr traces) = Returns true
  ↔ traces ≠ [] ∧ Forall (λ t, validTrace t = Returns true) traces.
Proof.
  unfold isValidPlotlyData. simpl. rewrite <- validTraces_true.
  destruct traces; simpl; intuition congruence.
Qed.

(** One rejected trace is enough for the whole payload not to be
    accepted. *)
Lemma isValidPlotlyData_elem (traces : list JSValue) (t : JSValue) :
  t ∈ traces → validTrace t ≠ Returns true →
  isValidPlotlyData (JArr traces) ≠ Returns true.
Proof.
  intros Hin Ht Hv. apply isValidPlotlyData_true in Hv as [_ Hall].
  rewrite Forall_forall in Hall. by apply Ht, Hall.
Qed.

(** The only values [isValidPlotlyData] accepts are arrays. *)
Lemma isValidPlotlyData_array (data : JSValue) :
  isValidPlotlyData data = Returns true → ∃ traces, data = JArr traces.
Proof.
  unfold isValidPlotlyData. destruct (truthy data); [|done].
  destruct data; try done. eauto.
Qed.

(** What [render] does with a Plotly visualization that has a payload:
    the verdict of the validator decides between the error panel and the
    plot of the sanitized payload. *)
Lemma render_plotly (st : state) (visualization data : JSValue) :
  plotly_with visualization data → truthy data = true →
  render st visualization =
    match isValidPlotlyData data with
    | Throws e => Throws e
    | Returns false => Returns (ErrorPanel msg_invalid_data)
    | Returns true =>
        match getPlotlyLayout visualization with
        | Throws e => Throws e
        | Returns layout =>
            let title :=
              match prop visualization "title" with
              | Returns t => if truthy t then t else JStr "Visualization"
              | Throws _ => JUndefined
              end in
            match plotlyError st with
            | Some e => Returns (RetryPanel title e)
            | None => Returns (Plot title (sanitizePlotlyData data) layout)
            end
        end
    end.
Proof.
  intros (v & -> & Herr & Hty & Hdata) Htr.
  unfold render. simpl. rewrite Herr, Hty, Hdata, Htr. simpl.
  destruct (isValidPlotlyData data) as [[]|e] eqn:Hv; simpl; [|done|done].
  destruct (getPlotlyLayout (JObj v)) as [layout|e]; simpl; [|done].
  apply isValidPlotlyData_array in Hv as [traces ->]. reflexivity.
Qed.

(** On an object [getPlotlyLayout] always returns a layout. *)
Lemma getPlotlyLayout_object (v : gmap string JSValue) :
  ∃ layout, getPlotlyLayout (JObj v) = Returns layout.
Proof.
  unfold getPlotlyLayout. simpl. destruct (truthy (field v "plotlyLayout")); eauto.
Qed.


End Pipeline.

Section Candidates.
Import VisualizationDisplay.

(** C2, as the code has it.  A pie trace whose [values] is a single
    number is rejected by the validator whatever its [labels] are, so in
    particular when they are absent: a payload made of it shows the error
    panel, no payload containing it is accepted, and the repair leaves
    [values] the number it was (only [x] and [y] of scatter and bar
    traces are promoted to arrays). *)
Theorem pie_scalar_values_rejected (o : gmap string JSValue) (q : Q) :
  field o "type" = JStr "pie" →
  field o "values" = JNum q →
  validTrace (JObj o) = Returns false
  ∧ (∀ st visualization,
       plotly_with visualization (JArr [JObj o]) →
       render st visualization = Returns (ErrorPanel msg_invalid_data))
  ∧ (∀ traces, JObj o ∈ traces → isValidPlotlyData (JArr traces) ≠ Returns true)
  ∧ field (sanitizeTrace (JObj o)) "values" = JNum q.
Proof.
  intros Hty Hval.
  assert (validTrace (JObj o) = Returns false) as Hv.
  { unfold validTrace. simpl. rewrite Hty, Hval. reflexivity. }
  split; [exact Hv|]. split; [|split].
  - intros st visualization Hp.
    rewrite (render_plotly st _ _ Hp) by done.
    unfold isValidPlotlyData. simpl. by rewrite Hv.
  - intros traces Hin. apply (isValidPlotlyData_elem _ _ Hin). by rewrite Hv.
  - rewrite sanitizeTrace_steps. simpl.
    rewrite field_ensure_mode_ne by done.
    rewrite ensure_type_fixed by (by rewrite Hty).
    unfold convert_xy. rewrite Hty. simpl. exact Hval.
Qed.

Lemma pie_scalar_values_rejected_witness :
  let trace : gmap string JSValue :=
    {[ "type" := JStr "pie"; "values" := JInt 5 ]} in
  validTrace (JObj trace) = Returns false
  ∧ field (sanitizeTrace (JObj trace)) "values" = JInt 5.
Proof.
  intros trace.
  destruct (pie_scalar_values_rejected trace (inject_Z 5)) as (Hv & _ & _ & Hs);
    [reflexivity | reflexivity |].
  split; [exact Hv | exact Hs].
Defined.

(** C2 as stated fails: the pie trace [{type: 'pie', values: 5, labels:
    ['a', 'b']}] has labels that are a valid array, yet the payload is
    rejected with the error panel and the repair returns the trace with
    [values] still [5]. *)
Lemma pie_scalar_values_not_promoted :
  let trace :=
    JObj {[ "type" := JStr "pie"; "values" := JInt 5;
            "labels" := JArr [JStr "a"; JStr "b"] ]} in
  let visualization :=
    JObj {[ "type" := JStr "plotly"; "plotlyData" := JArr [trace] ]} in
  render (mkState None false 0) visualization = Returns (ErrorPanel msg_invalid_data)
  ∧ sanitizePlotlyData (JArr [trace]) = JArr [trace].
Proof. split; vm_compute; reflexivity. Qed.

(** C3, as the code has it.  For a bar or scatter trace the validator
    checks that [x] and [y] are arrays and nothing else: whatever their
    two lengths, the trace is accepted, and a payload made of it is
    plotted with both arrays as they came. *)
Theorem bar_scatter_lengths_unchecked (o : gmap string JSValue) (xs ys : list JSValue) :
  field o "type" = JStr "bar" ∨ field o "type" = JStr "scatter" →
  field o "x" = JArr xs →
  field o "y" = JArr ys →
  validTrace (JObj o) = Returns true
  ∧ isValidPlotlyData (JArr [JObj o]) = Returns true
  ∧ (∀ st visualization,
       plotly_with visualization (JArr [JObj o]) →
       plotlyError st = None →
       ∃ title layout t,
         render st visualization = Returns (Plot title (JArr [JObj t]) layout)
         ∧ field t "x" = JArr xs ∧ field t "y" = JArr ys).
Proof.
  intros Hty Hx Hy.
  assert (validTrace (JObj o) = Returns true) as Hv.
  { unfold validTrace. simpl. rewrite Hx, Hy. by destruct Hty as [-> | ->]. }
  assert (isValidPlotlyData (JArr [JObj o]) = Returns true) as Hd.
  { apply isValidPlotlyData_true. split; [done|]. by repeat constructor. }
  split; [exact Hv|]. split; [exact Hd|].
  intros st visualization Hp Hst.
  rewrite (render_plotly st _ _ Hp) by done. rewrite Hd, Hst.
  destruct Hp as (v & -> & _).
  destruct (getPlotlyLayout_object v) as [layout ->].
  eexists _, layout, (sanitizeTrace (JObj o)). split; [reflexivity|].
  rewrite sanitizeTrace_steps. simpl.
  rewrite !field_ensure_mode_ne by done.
  assert (ensure_type o = o) as ->.
  { apply ensure_type_fixed. by destruct Hty as [-> | ->]. }
  rewrite convert_xy_fixed; [done|].
  intros _. unfold settled. by rewrite Hx, Hy.
Qed.

Lemma bar_scatter_lengths_unchecked_witness :
  let trace : gmap string JSValue :=
    {[ "type" := JStr "bar"; "x" := JArr [JStr "a"; JStr "b"]; "y" := JArr [JInt 1] ]} in
  isValidPlotlyData (JArr [JObj trace]) = Returns true.
Proof.
  intros trace.
  destruct (bar_scatter_lengths_unchecked trace [JStr "a"; JStr "b"] [JInt 1])
    as (_ & Hd & _); [by left | reflexivity | reflexivity |].
  exact Hd.
Defined.

(** C3 as stated fails: the bar trace [{type: 'bar', x: ['a', 'b'], y:
    [1]}] pairs two categories with one value, and the validator accepts
    it and the component plots it. *)
Lemma bar_unequal_lengths_accepted :
  let trace :=
    JObj {[ "type" := JStr "bar"; "x" := JArr [JStr "a"; JStr "b"];
            "y" := JArr [JInt 1] ]} in
  let visualization :=
    JObj {[ "type" := JStr "plotly"; "plotlyData" := JArr [trace] ]} in
  isValidPlotlyData (JArr [trace]) = Returns true
  ∧ render (mkState None false 0) visualization
    = Returns (Plot (JStr "Visualization") (JArr [trace])
                 (defaultLayout JUndefined)).
Proof. split; vm_compute; reflexivity. Qed.

(** Reading a property other than [length] off a value that is neither
    [null] nor [undefined] finds its own property of that name. *)
Lemma prop_own_props (v : JSValue) (k : string) :
  v ≠ JUndefined → v ≠ JNull → k ≠ "length"%string →
  prop v k = Returns (field (own_props v) k).
Proof.
  intros Hu Hn Hk. destruct v; try done; simpl.
  - by rewrite (proj2 (String.eqb_neq k "length")).
  - by rewrite (proj2 (String.eqb_neq k "length")).
Qed.

Lemma nullish_or_not (v : JSValue) :
  v = JUndefined ∨ v = JNull ∨ (v ≠ JUndefined ∧ v ≠ JNull).
Proof. destruct v; auto. Qed.




End Candidates.

(** ** sanitizePlotlyData on the store *)

Section StoreRefinement.

Lemma read_insert (h : gmap Store.loc JSValue) (l : Store.loc)
    (t : gmap string JSValue) (k : string) :
  Store.read (<[l := JObj t]> h) l k = field t k.
Proof. unfold Store.read, Store.deref. by rewrite lookup_insert_eq. Qed.

Lemma write_insert (h : gmap Store.loc JSValue) (l : Store.loc)
    (t : gmap string JSValue) (k : string) (v : JSValue) :
  Store.write l k v (<[l := JObj t]> h) = <[l := JObj (<[k := v]> t)]> h.
Proof. unfold Store.write. by rewrite alter_insert_eq. Qed.

Lemma promote_insert (h : gmap Store.loc JSValue) (l : Store.loc)
    (t : gmap string JSValue) (k : string) :
  Store.promote l k (<[l := JObj t]> h)
  = <[l := JObj (VisualizationDisplay.promote k t)]> h.
Proof.
  unfold Store.promote, VisualizationDisplay.promote. rewrite read_insert.
  case_match; [|done]. by rewrite write_insert.
Qed.

(** One call of the callback allocates one object, the repaired copy,
    and touches nothing else. *)
Lemma store_sanitizeTrace (trace : Store.loc) (h : gmap Store.loc JSValue) :
  Store.sanitizeTrace trace h
  = (fresh (dom h),
     <[fresh (dom h) := JObj (VisualizationDisplay.sanitizeTrace (Store.deref h trace))]> h).
Proof.
  unfold Store.sanitizeTrace, Store.alloc, VisualizationDisplay.sanitizeTrace.
  set (l := fresh (dom h)). set (t0 := object_spread [Store.deref h trace]).
  cbv zeta. f_equal.
  rewrite read_insert.
  assert ((if negb (truthy (field t0 "type"))
           then Store.write l "type" (JStr "scatter") (<[l := JObj t0]> h)
           else <[l := JObj t0]> h)
          = <[l := JObj (VisualizationDisplay.ensure_type t0)]> h) as ->.
  { unfold VisualizationDisplay.ensure_type. case_match; [|done].
    by rewrite write_insert. }
  set (t1 := VisualizationDisplay.ensure_type t0).
  rewrite read_insert.
  assert ((if strict_eq_str (field t1 "type") "scatter"
              || strict_eq_str (field t1 "type") "bar"
           then Store.promote l "y" (Store.promote l "x" (<[l := JObj t1]> h))
           else <[l := JObj t1]> h)
          = <[l := JObj (VisualizationDisplay.convert_xy t1)]> h) as ->.
  { unfold VisualizationDisplay.convert_xy. case_match; [|done].
    by rewrite !promote_insert. }
  set (t2 := VisualizationDisplay.convert_xy t1).
  rewrite !read_insert.
  unfold VisualizationDisplay.ensure_mode. case_match; [|done].
  by rewrite write_insert.
Qed.

(** Mapping the callback over an array of traces that live in the store:
    what was in the store stays as it was, the array returned holds
    locations that were not in use, one per trace, and the objects at
    them are the repaired traces of the value-level function. *)
Lemma store_sanitizePlotlyData (data : list Store.loc) (h : gmap Store.loc JSValue) :
  Forall (λ l, l ∈ dom h) data →
  ∃ out h',
    Store.sanitizePlotlyData data h = (out, h')
    ∧ (∀ l, l ∈ dom h → h' !! l = h !! l)
    ∧ Forall (λ l, l ∉ dom h) out
    ∧ Store.deref h' <$> out
      = (λ trace, JObj (VisualizationDisplay.sanitizeTrace trace)) <$> (Store.deref h <$> data).
Proof.
  revert h. induction data as [|trace rest IH]; intros h Hdom.
  - exists [], h. simpl. repeat split; auto.
  - apply Forall_cons in Hdom as [Htrace Hrest].
    cbn [Store.sanitizePlotlyData]. rewrite store_sanitizeTrace.
    set (l := fresh (dom h)).
    set (h1 := <[l := JObj (VisualizationDisplay.sanitizeTrace (Store.deref h trace))]> h).
    assert (l ∉ dom h) as Hfresh by apply is_fresh.
    assert (∀ l', l' ∈ dom h → l' ∈ dom h1 ∧ h1 !! l' = h !! l') as Hframe.
    { intros l' Hl'. split.
      - unfold h1. rewrite dom_insert_L. by apply elem_of_union_r.
      - unfold h1. apply lookup_insert_ne. intros ->. done. }
    destruct (IH h1) as (out & h' & Heq & Hkeep & Hnew & Hobjs).
    { eapply Forall_impl; [exact Hrest|]. intros l' Hl'. by apply Hframe. }
    rewrite Heq. exists (l :: out), h'. split; [reflexivity|].
    assert (l ∈ dom h1) as Hl1.
    { unfold h1. rewrite dom_insert_L. by apply elem_of_union_l, elem_of_singleton. }
    split; [|split].
    + intros l' Hl'. destruct (Hframe l' Hl') as [Hin Hsame].
      by rewrite Hkeep.
    + constructor; [exact Hfresh|].
      eapply Forall_impl; [exact Hnew|]. intros l' Hl' Hin.
      apply Hl'. by apply Hframe.
    + rewrite !fmap_cons. f_equal.
      * unfold Store.deref at 1. rewrite (Hkeep l Hl1).
        unfold h1. by rewrite lookup_insert_eq.
      * rewrite Hobjs. f_equal.
        apply Forall_fmap_ext. eapply Forall_impl; [exact Hrest|].
        intros l' Hl'. unfold Store.deref. by rewrite (proj2 (Hframe l' Hl')).
Qed.

End StoreRefinement.

(** C10.  [sanitizePlotlyData] always returns: [null] exactly for an
    argument that is not an array, and for an array an array of the same
    length whose traces all have a truthy [type], the trace's own or
    ["scatter"] when it had none.  It does not mutate its input: run on
    traces in a store, it leaves every object that was there as it was
    and returns newly allocated objects, the repaired copies. *)
Theorem sanitizePlotlyData_total_shape_preserving :
  (∀ data, VisualizationDisplay.sanitizePlotlyData data = JNull ↔ isArray data = false)
  ∧ (∀ traces, ∃ out,
       VisualizationDisplay.sanitizePlotlyData (JArr traces) = JArr out
       ∧ length out = length traces
       ∧ ∀ i trace, traces !! i = Some trace →
           ∃ t, out !! i = Some (JObj t)
                ∧ truthy (field t "type") = true
                ∧ field t "type"
                  = if truthy (field (own_props trace) "type")
                    then field (own_props trace) "type" else JStr "scatter")
  ∧ (∀ (h : gmap Store.loc JSValue) (data : list Store.loc),
       Forall (λ l, l ∈ dom h) data →
       ∃ out h',
         Store.sanitizePlotlyData data h = (out, h')
         ∧ (∀ l, l ∈ dom h → h' !! l = h !! l)
         ∧ Forall (λ l, l ∉ dom h) out
         ∧ JArr (Store.deref h' <$> out)
           = VisualizationDisplay.sanitizePlotlyData (JArr (Store.deref h <$> data))).
Proof.
  split; [|split].
  - intros data. destruct data; simpl; split; done.
  - intros traces. eexists. split; [reflexivity|].
    split; [by rewrite length_fmap|].
    intros i trace Hi. eexists. split.
    + rewrite list_lookup_fmap, Hi. reflexivity.
    + rewrite sanitizeTrace_type.
      destruct (truthy (field (own_props trace) "type")) eqn:E; auto.
  - intros h data Hdom.
    destruct (store_sanitizePlotlyData data h Hdom) as (out & h' & Heq & Hkeep & Hnew & Hobjs).
    exists out, h'. unfold VisualizationDisplay.sanitizePlotlyData.
    by rewrite Hobjs.
Qed.

Lemma sanitizePlotlyData_total_shape_preserving_witness :
  let trace := JObj {[ "x" := JInt 7 ]} in
  let h : gmap Store.loc JSValue := {[ 0%nat := trace ]} in
  ∃ out h',
    Store.sanitizePlotlyData [0%nat] h = (out, h')
    ∧ h' !! 0%nat = Some trace
    ∧ Forall (λ l, l ∉ dom h) out.
Proof.
  intros trace h.
  destruct sanitizePlotlyData_total_shape_preserving as (_ & _ & Hstore).
  destruct (Hstore h [0%nat]) as (out & h' & Heq & Hkeep & Hnew & _).
  { apply Forall_singleton. unfold h. rewrite dom_singleton_L.
    by apply elem_of_singleton. }
  exists out, h'. split; [exact Heq|]. split; [|exact Hnew].
  rewrite Hkeep; [reflexivity|].
  unfold h. rewrite dom_singleton_L. by apply elem_of_singleton.
Defined.

(** ** The manual retry and the application *)

Section Retry.
Context `{Coercion}.

(** Every event the retry dispatches has the type
    ["visualization-updated"]. *)
Lemma retry_events (visualization : JSValue) (r : response)
    (st : VisualizationDisplay.state) :
  Forall (λ e, e.1 = "visualization-updated"%string)
         (VisualizationDisplay.handleRetryVisualization visualization r st).2.
Proof.
  unfold VisualizationDisplay.handleRetryVisualization.
  destruct (VisualizationDisplay.cannot_retry visualization); [constructor|].
  unfold VisualizationDisplay.retry_try.
  destruct r as [data|message]; [|constructor].
  destruct (prop data "visualizations") as [visualizations|e]; simpl; [|constructor].
  destruct (truthy visualizations); [|constructor].
  destruct (prop visualizations "length") as [len|e]; simpl; [|constructor].
  destruct (gt_zero len); simpl; repeat constructor.
Qed.

(** The listener that [App] mounts is registered for
    ["visualization-update"]: an event of another type passes it by. *)
Lemma dispatch_updated (e : string * JSValue) (app : App.state) :
  e.1 = "visualization-updated"%string →
  App.dispatchEvent (App.mount []) e app = app.
Proof. intros He. unfold App.dispatchEvent. simpl. by rewrite He. Qed.

(** Under its own event type the listener does what the retry needs: it
    replaces the visualizations and selects the first. *)
Lemma dispatch_update (data : JSValue) (vs : list JSValue) (app : App.state) :
  prop data "visualizations" = Returns (JArr vs) →
  App.dispatchEvent (App.mount []) ("visualization-update"%string, data) app
  = App.mkState data 0.
Proof.
  intros Hvs.
  assert (truthy data = true) as Htr.
  { destruct data as [| |b|q|s|l|o]; try done. by destruct s. }
  unfold App.dispatchEvent. simpl.
  unfold App.handleRetryUpdate. by rewrite Hvs, Htr.
Qed.

(** C1, on the code.  Whatever the server answers to a manual retry, the
    application's state afterwards is the state before: the event that
    carries the retry result is dispatched as ["visualization-updated"],
    and the application listens for ["visualization-update"]. *)
Theorem manual_retry_leaves_app (visualization : JSValue) (r : response)
    (display : VisualizationDisplay.state) (app : App.state) :
  (App.manual_retry (App.mount []) visualization r display app).2 = app.
Proof.
  unfold App.manual_retry.
  pose proof (retry_events visualization r display) as Hev.
  destruct (VisualizationDisplay.handleRetryVisualization visualization r display)
    as [display' events].
  cbn [snd] in *. induction Hev as [|e events He _ IH]; cbn [foldl]; [done|].
  by rewrite dispatch_updated.
Qed.

(** The retry of a failed plot whose answer holds one new visualization:
    the display component clears its error, the application still shows
    what it showed. *)
Lemma manual_retry_result_lost :
  let old := JObj {[ "visualizations" := JArr [JObj {[ "type" := JStr "plotly" ]}] ]} in
  let new := JObj {[ "visualizations" :=
                       JArr [JObj {[ "type" := JStr "bar"; "title" := JStr "Sales" ]}] ]} in
  let visualization := JObj {[ "type" := JStr "plotly"; "sourceText" := JStr "a,1" ]} in
  App.manual_retry (App.mount []) visualization (Answered new)
    (VisualizationDisplay.mkState (Some (VisualizationDisplay.PlotlyError JUndefined)) false 0)
    (App.mkState old 3)
  = (VisualizationDisplay.mkState None false 1, App.mkState old 3).
Proof. vm_compute. reflexivity. Qed.

(** ** The model selector *)

(** C8.  When the models endpoint answers with an empty [models] list,
    no error is set, no model is selected, and once loaded the component
    renders the selector with the "No models found" notice, not the error
    panel. *)
Theorem empty_models_no_error (selectedModel : JSValue)
    (st : ModelSelector.state) (o : gmap string JSValue) :
  field o "models" = JArr [] →
  ∃ st',
    ModelSelector.fetchModels selectedModel (Answered (JObj o)) st = (st', [])
    ∧ ModelSelector.error st' = ModelSelector.error st
    ∧ ModelSelector.models st' = JArr []
    ∧ ModelSelector.loading st' = false
    ∧ (ModelSelector.shown_error st = None →
       ModelSelector.render st'
       = Returns (ModelSelector.Selector [] ModelSelector.NoModelsFound)).
Proof.
  intros Hm. unfold ModelSelector.fetchModels. simpl. rewrite Hm. simpl.
  destruct (truthy selectedModel); simpl;
    (eexists; split; [reflexivity|]; repeat split; try reflexivity;
     intros Hs; unfold ModelSelector.render; simpl;
     unfold ModelSelector.shown_error in *; simpl; by rewrite Hs).
Qed.

End Retry.

Lemma empty_models_no_error_witness :
  ∃ st',
    @ModelSelector.fetchModels (Build_Coercion (λ _, None)) (JStr "")
       (Answered (JObj {[ "models" := JArr [] ]})) ModelSelector.initial = (st', [])
    ∧ ModelSelector.error st' = None.
Proof.
  destruct (@empty_models_no_error (Build_Coercion (λ _, None)) (JStr "")
              ModelSelector.initial {[ "models" := JArr [] ]})
    as (st' & Hf & He & _); [reflexivity|].
  exists st'. split; [exact Hf | exact He].
Defined.

(** ** The editor update *)

Section Editor.

Lemma array_set_lookup_eq (l : list JSValue) (i : nat) (v : JSValue) :
  array_set l i v !! i = Some v.
Proof.
  unfold array_set. case_decide.
  - by apply list_lookup_insert_eq.
  - rewrite lookup_app_r by lia.
    rewrite lookup_app_r; rewrite length_replicate; [|lia].
    by replace (i - length l - (i - length l)) with 0 by lia.
Qed.

Lemma array_set_lookup_ne (l : list JSValue) (i j : nat) (v : JSValue) :
  i ≠ j →
  default JUndefined (array_set l i v !! j) = default JUndefined (l !! j).
Proof.
  intros Hne. unfold array_set. case_decide.
  - by rewrite list_lookup_insert_ne.
  - destruct (decide (j < length l)) as [Hj|Hj].
    + by rewrite lookup_app_l.
    + rewrite (lookup_ge_None_2 l j) by lia.
      rewrite lookup_app_r by lia.
      destruct (decide (j - length l < i - length l)) as [Hlt|Hge].
      * rewrite lookup_app_l by (by rewrite length_replicate).
        by rewrite lookup_replicate_2.
      * rewrite lookup_app_r; rewrite length_replicate; [|lia].
        rewrite lookup_ge_None_2; [done|]. simpl. lia.
Qed.

(** What [handleEditorUpdate] sets, when it gets as far as setting
    anything: a copy of the data whose [visualizations] is a copy of the
    array with the selected slot replaced by the merge. *)
Lemma handleEditorUpdate_sets (updates : JSValue) (st st' : App.state) :
  App.handleEditorUpdate updates st = Returns st' →
  st' = st
  ∨ ∃ visualizations copy,
      prop (App.visualizationData st) "visualizations" = Returns visualizations
      ∧ array_spread visualizations = Returns copy
      ∧ (∀ i, index visualizations i = Returns (default JUndefined (copy !! i)))
      ∧ st' = App.mkState
                (JObj (<["visualizations" :=
                           JArr (array_set copy (App.selectedVisualization st)
                                   (JObj (own_props updates
                                          ∪ own_props (default JUndefined
                                               (copy !! App.selectedVisualization st)))))]>
                         (own_props (App.visualizationData st))))
                (App.selectedVisualization st).
Proof.
  unfold App.handleEditorUpdate.
  destruct (truthy (App.visualizationData st)); simpl; [|intros [= <-]; by left].
  destruct (prop (App.visualizationData st) "visualizations") as [vs|e]; simpl; [|done].
  destruct (truthy vs); simpl; [|intros [= <-]; by left].
  destruct (array_spread vs) as [copy|e] eqn:Hcopy; simpl; [|done].
  intros [= <-]. right. exists vs, copy. split; [done|]. split; [done|]. split.
  - intros i. destruct vs; try done; simpl in *; by injection Hcopy as <-.
  - by rewrite object_spread_two, object_spread_one.
Qed.

End Editor.

(** C9.  An editor update changes the visualization at the selected
    index and nothing else: the selection stays, the visualization at
    every other index is the one that was there, every other field of the
    visualization data keeps its value, and in the selected visualization
    every field that the update does not name keeps its value. *)
Theorem editor_update_frame (updates : JSValue) (st : App.state) :
  let st' := App.after (App.handleEditorUpdate updates) st in
  let selected := App.selectedVisualization st in
  App.selectedVisualization st' = selected
  ∧ (∀ i, i ≠ selected → App.visualization_at st' i = App.visualization_at st i)
  ∧ (∀ k, k ≠ "visualizations"%string →
          own_props (App.visualizationData st') !! k
          = own_props (App.visualizationData st) !! k)
  ∧ (∀ k, own_props updates !! k = None →
          own_props (App.visualization_at st' selected) !! k
          = own_props (App.visualization_at st selected) !! k).
Proof.
  intros st' selected. unfold st', App.after.
  destruct (App.handleEditorUpdate updates st) as [st1|e] eqn:Hh; [|done].
  apply handleEditorUpdate_sets in Hh
    as [-> | (vs & copy & Hvs & Hcopy & Hindex & ->)]; [done|].
  fold selected. split; [done|]. split; [|split].
  - intros i Hi. unfold App.visualization_at. simpl.
    rewrite field_insert_eq, Hvs. simpl. rewrite Hindex.
    by apply array_set_lookup_ne.
  - intros k Hk. simpl. by rewrite lookup_insert_ne.
  - intros k Hk. unfold App.visualization_at. simpl.
    rewrite field_insert_eq, Hvs. simpl. rewrite Hindex.
    rewrite array_set_lookup_eq. simpl. by rewrite lookup_union_r.
Qed.

Lemma editor_update_frame_witness :
  let first := JObj {[ "type" := JStr "plotly"; "title" := JStr "A" ]} in
  let second := JObj {[ "type" := JStr "plotly"; "title" := JStr "B" ]} in
  let st := App.mkState (JObj {[ "visualizations" := JArr [first; second] ]}) 1 in
  let updates := JObj {[ "plotlyLayout" := JObj ∅ ]} in
  let st' := App.after (App.handleEditorUpdate updates) st in
  App.visualization_at st' 0 = first
  ∧ own_props (App.visualization_at st' 1) !! "title" = Some (JStr "B").
Proof.
  intros first second st updates st'.
  pose proof (editor_update_frame updates st) as Hframe.
  cbv zeta in Hframe. destruct Hframe as (_ & Hother & _ & Hfield).
  subst st'. split.
  - rewrite (Hother 0%nat); [reflexivity | discriminate].
  - exact (eq_trans (Hfield "title"%string eq_refl) eq_refl).
Defined.

(** ** The logging service *)

Section Logging.
Import LoggingService.
Context {Arg : Type} (arg_to_string : Arg → outcome string).

Local Abbreviation state := (@state Arg).

Lemma attempts_snoc (id : nat) (sent : list post) (p : post) :
  attempts id (sent ++ [p])
  = attempts id sent + (if decide (target p = id) then 1 else 0).
Proof.
  unfold attempts. rewrite filter_app, length_app. f_equal.
  rewrite filter_cons, filter_nil. by case_decide.
Qed.

Lemma invariant_initial : invariant (@initial Arg).
Proof.
  split; simpl; try done.
  intros n. unfold attempts, maxRetries. simpl. lia.
Qed.

(** The invariant does not look at the console or at the timers. *)
Lemma invariant_environment (s : state) (c : list (@console_line Arg)) (t : nat) :
  invariant s →
  invariant (mkState (logQueue s) (isProcessingQueue s) c (posts s) t (shifted s)).
Proof. intros [? ? ? ? ? ?]. by split. Qed.

Lemma invariant_processQueue (s : state) :
  invariant s → invariant (processQueue s).
Proof.
  intros Hinv. unfold processQueue.
  destruct (isProcessingQueue s) eqn:Hflag; [done|].
  destruct (logQueue s) as [|e rest] eqn:Hq; [done|].
  destruct Hinv as [Hf Hr Hw Hh Hfu Hb]. rewrite Hq, Hflag in *.
  apply Forall_cons in Hr as Hr'. destruct Hr' as [He _].
  split; simpl; rewrite ?Hq; try done.
  - rewrite attempts_snoc, Hh. simpl. rewrite decide_True by done. lia.
  - intros id Hid. rewrite attempts_snoc, Hfu by done. simpl.
    rewrite decide_False by lia. done.
  - intros id. rewrite attempts_snoc. simpl. case_decide as Hid.
    + subst id. rewrite Hh. unfold maxRetries in *. lia.
    + specialize (Hb id). lia.
Qed.

Lemma invariant_push (s : state) (level message : string) :
  invariant s →
  invariant (mkState (logQueue s ++ [mkEntry level message 0]) (isProcessingQueue s)
                     (console s) (posts s) (timers s) (shifted s)).
Proof.
  intros [Hf Hr Hw Hh Hfu Hb]. split; simpl; try done.
  - intros _. by destruct (logQueue s).
  - apply Forall_app. split; [done|]. constructor; [|done]. simpl.
    unfold maxRetries. lia.
  - destruct (logQueue s) as [|e rest]; simpl in *; [done|].
    apply Forall_app. split; [done|]. by constructor.
  - rewrite Hh. destruct (logQueue s) as [|e rest] eqn:Hq; simpl; [|done].
    destruct (isProcessingQueue s); [|done]. by destruct Hf.
Qed.

Lemma invariant_console_call (m : method) (args : list Arg) (s : state) :
  invariant s → invariant (console_call arg_to_string m args s).1.
Proof.
  intros Hinv. unfold console_call, queueLog.
  destruct (join arg_to_string args) as [message|e];
    cbn [fst logQueue isProcessingQueue console posts timers shifted].
  - case_match.
    + by apply invariant_environment.
    + apply invariant_processQueue.
      apply (invariant_push (mkState _ _ _ _ _ _)).
      by apply invariant_environment.
  - by apply invariant_environment.
Qed.

(** Dropping the head of the queue, which is what both the success
    branch and the give-up branch of [processQueue] do. *)
Lemma invariant_shift (s : state) (e : LogEntry) (rest : list LogEntry)
    (c : list (@console_line Arg)) :
  invariant s → logQueue s = e :: rest →
  invariant (finally rest c (S (shifted s)) s).
Proof.
  intros [Hf Hr Hw Hh Hfu Hb] Hq. rewrite Hq in *. simpl in Hw.
  apply Forall_cons in Hr as [_ Hr].
  split; simpl; try done.
  - by destruct rest; [|apply Forall_cons in Hw as [_ Hw]].
  - rewrite Hfu by lia. destruct rest as [|e' rest']; [done|].
    apply Forall_cons in Hw as [-> _]. done.
  - intros id Hid. apply Hfu. lia.
Qed.

Lemma invariant_resume (failure : option string) (s s' : state) :
  invariant s → isProcessingQueue s = true →
  resume failure s = Returns s' → invariant s'.
Proof.
  intros Hinv Hflag. pose proof (inv_flag s Hinv Hflag) as Hne.
  destruct (logQueue s) as [|e rest] eqn:Hq; [done|].
  unfold resume. rewrite Hq. destruct failure as [reason|]; cbn [retries message level].
  - destruct (maxRetries <=? S (retries e))%nat eqn:Hle; intros [= <-].
    + by apply (invariant_shift s e).
    + destruct Hinv as [Hf Hr Hw Hh Hfu Hb]. rewrite Hq, Hflag in *.
      apply Forall_cons in Hr as [He Hr]. simpl in Hw.
      apply Nat.leb_gt in Hle. unfold maxRetries in *.
      split; simpl; try done.
      * constructor; [simpl; unfold maxRetries; lia | done].
      * rewrite Hh. lia.
  - intros [= <-]. by apply (invariant_shift s e).
Qed.

Lemma invariant_step (s s' : state) :
  invariant s → step arg_to_string s s' → invariant s'.
Proof.
  intros Hinv Hstep. destruct Hstep as [m args s | failure s s' Hflag Hres | s Ht].
  - by apply invariant_console_call.
  - by apply (invariant_resume failure s).
  - unfold timer_fired. apply invariant_processQueue.
    by apply invariant_environment.
Qed.

Lemma reachable_invariant (s : state) :
  reachable arg_to_string s → invariant s.
Proof.
  induction 1 as [|s s' _ IH Hstep].
  - apply invariant_initial.
  - by apply (invariant_step s).
Qed.

Lemma reachable_rtc (s s' : state) :
  reachable arg_to_string s → rtc (step arg_to_string) s s' →
  reachable arg_to_string s'.
Proof.
  intros Hreach Hrun. induction Hrun as [s | s s1 s' Hstep _ IH]; [done|].
  apply IH. by apply (reachable_step arg_to_string s).
Qed.

(** [processQueue] touches the flag and the requests, nothing else. *)
Lemma processQueue_frame (s : state) :
  logQueue (processQueue s) = logQueue s
  ∧ console (processQueue s) = console s
  ∧ timers (processQueue s) = timers s
  ∧ shifted (processQueue s) = shifted s.
Proof.
  unfold processQueue. destruct (isProcessingQueue s); [done|].
  by destruct (logQueue s) eqn:Hq.
Qed.

(** When [processQueue] leaves the flag down, there was nothing to
    send. *)
Lemma processQueue_idle (s : state) :
  isProcessingQueue (processQueue s) = false → logQueue (processQueue s) = [].
Proof.
  unfold processQueue.
  destruct (isProcessingQueue s) eqn:Hflag; [by rewrite Hflag|].
  destruct (logQueue s) eqn:Hq; [by intros _ | done].
Qed.

(** The overridden method hands its arguments to the original one, once,
    and writes nothing else to the console. *)
Lemma console_console_call (m : method) (args : list Arg) (s : state) :
  console (console_call arg_to_string m args s).1 = console s ++ [Forwarded m args].
Proof.
  unfold console_call, queueLog.
  destruct (join arg_to_string args) as [message|e]; cbn [fst]; [|done].
  case_match; [done|].
  match goal with
  | |- console (processQueue ?s') = _ =>
      by destruct (processQueue_frame s') as (_ & -> & _)
  end.
Qed.

(** A call whose message is taken into the queue leaves a request in
    flight: the one that was, or the one that [processQueue] issues. *)
Lemma console_call_queued (m : method) (args : list Arg) (message : string) (s : state) :
  join arg_to_string args = Returns message →
  includes message "Error sending log to server" = false →
  isProcessingQueue (console_call arg_to_string m args s).1 = true
  ∧ logQueue (console_call arg_to_string m args s).1
    = logQueue s ++ [mkEntry (level_of m) message 0].
Proof.
  intros Hjoin Hinc. unfold console_call, queueLog. rewrite Hjoin. cbn [fst].
  rewrite Hinc. unfold processQueue.
  cbn [logQueue isProcessingQueue console posts timers shifted].
  destruct (isProcessingQueue s) eqn:Hflag; [done|].
  destruct (logQueue s ++ [mkEntry (level_of m) message 0]) eqn:Hq; [|done].
  by destruct (logQueue s).
Qed.

(** A queue that is not empty is being sent, or has a timer pending. *)
Lemma reachable_scheduled (s : state) :
  reachable arg_to_string s →
  isProcessingQueue s = false → logQueue s ≠ [] → 0 < timers s.
Proof.
  induction 1 as [|s s' _ IH Hstep]; [done|].
  destruct Hstep as [m args s | failure s s' Hflag Hres | s Ht].
  - unfold console_call, queueLog.
    destruct (join arg_to_string args) as [message|e]; cbn [fst]; [|exact IH].
    cbn [logQueue isProcessingQueue console posts timers shifted].
    case_match; [exact IH|].
    intros Hf Hne. by rewrite (processQueue_idle _ Hf) in Hne.
  - intros _ Hne. unfold resume in Hres. destruct failure as [reason|].
    + destruct (logQueue s) as [|e rest]; [done|].
      cbn [retries message level] in Hres.
      destruct (maxRetries <=? S (retries e))%nat; injection Hres as <-; simpl in *.
      * destruct rest; [done | lia].
      * lia.
    + injection Hres as <-. simpl in *. destruct (tail (logQueue s)); [done | lia].
  - intros Hf Hne. unfold timer_fired in *. by rewrite (processQueue_idle _ Hf) in Hne.
Qed.

(** What a failure does to the queue: the head is dropped if this was
    its last attempt, and has one more failure on its counter if not. *)
Lemma resume_failure (reason : string) (s : state) (e : LogEntry) (rest : list LogEntry) :
  logQueue s = e :: rest →
  ∃ s', resume (Some reason) s = Returns s'
        ∧ isProcessingQueue s' = false
        ∧ logQueue s' = if (maxRetries <=? S (retries e))%nat then rest
                        else mkEntry (level e) (message e) (S (retries e)) :: rest.
Proof.
  intros Hq. unfold resume. rewrite Hq. cbn [retries message level].
  destruct (maxRetries <=? S (retries e))%nat; eexists; split; reflexivity || done.
Qed.

(** A timer that fires on an idle service sends the head of the queue
    again; one that fires while a request is in flight does nothing. *)
Lemma timer_fired_idle (s : state) (e : LogEntry) (rest : list LogEntry) :
  isProcessingQueue s = false → logQueue s = e :: rest →
  isProcessingQueue (timer_fired s) = true
  ∧ logQueue (timer_fired s) = logQueue s
  ∧ posts (timer_fired s) = posts s ++ [mkPost (shifted s) (level e) (message e)].
Proof.
  intros Hflag Hq. unfold timer_fired, processQueue.
  cbn [isProcessingQueue logQueue posts shifted]. by rewrite Hflag, Hq.
Qed.

Lemma timer_fired_busy (s : state) :
  isProcessingQueue s = true →
  isProcessingQueue (timer_fired s) = true ∧ logQueue (timer_fired s) = logQueue s.
Proof.
  intros Hflag. unfold timer_fired, processQueue.
  cbn [isProcessingQueue logQueue]. by rewrite Hflag.
Qed.

Lemma remaining_bound (queue : list LogEntry) :
  remaining queue ≤ maxRetries * length queue.
Proof.
  induction queue as [|e queue IH]; cbn [remaining length]; unfold maxRetries in *; lia.
Qed.

Lemma down_step_step (s s' : state) :
  down_step s s' → step arg_to_string s s'.
Proof.
  intros [reason s0 s0' Hflag Hres | s0 Ht].
  - by apply (step_settled arg_to_string (Some reason)).
  - by apply step_timer.
Qed.

(** With the server down and nothing new logged, every step spends
    something: a failure one of the requests that the queue has ahead of
    it, at the price of one timer at most, and a timer itself. *)
Lemma down_step_spends (s s' : state) :
  invariant s → down_step s s' →
  S (2 * remaining (logQueue s') + timers s') ≤ 2 * remaining (logQueue s) + timers s.
Proof.
  intros Hinv Hstep. destruct Hstep as [reason s0 s0' Hflag Hres | s0 Ht].
  - pose proof (inv_flag s0 Hinv Hflag) as Hne.
    pose proof (inv_retries s0 Hinv) as Hr.
    destruct (logQueue s0) as [|e rest] eqn:Hq; [done|].
    apply Forall_cons in Hr as [He _].
    unfold resume in Hres. rewrite Hq in Hres. cbn [retries message level] in Hres.
    destruct (maxRetries <=? S (retries e))%nat eqn:Hle; injection Hres as <-;
      cbn [finally logQueue timers remaining retries].
    + apply Nat.leb_le in Hle. destruct rest; cbn [remaining]; unfold maxRetries in *; lia.
    + apply Nat.leb_gt in Hle. unfold maxRetries in *. lia.
  - unfold timer_fired.
    destruct (processQueue_frame (mkState (logQueue s0) (isProcessingQueue s0) (console s0)
      (posts s0) (pred (timers s0)) (shifted s0))) as (-> & _ & -> & _).
    cbn [logQueue timers]. lia.
Qed.

Lemma down_steps_spend (n : nat) (s s' : state) :
  reachable arg_to_string s → nsteps down_step n s s' →
  reachable arg_to_string s'
  ∧ n + (2 * remaining (logQueue s') + timers s')
    ≤ 2 * remaining (logQueue s) + timers s.
Proof.
  intros Hreach Hrun. induction Hrun as [s | n s s1 s' Hstep _ IH].
  - split; [done | lia].
  - pose proof (down_step_spends s s1 (reachable_invariant s Hreach) Hstep) as Hspent.
    destruct IH as [Hreach' Hle].
    { apply (reachable_step arg_to_string s); [done|]. by apply down_step_step. }
    split; [done | lia].
Qed.

(** As long as the queue is not empty the service has a step to take. *)
Lemma down_step_enabled (s : state) :
  reachable arg_to_string s → logQueue s ≠ [] → ∃ s', down_step s s'.
Proof.
  intros Hreach Hne. destruct (isProcessingQueue s) eqn:Hflag.
  - destruct (logQueue s) as [|e rest] eqn:Hq; [done|].
    destruct (resume_failure "" s e rest Hq) as (s' & Hres & _).
    exists s'. by apply (down_settled "").
  - exists (timer_fired s). apply down_timer. by apply reachable_scheduled.
Qed.

Lemma down_steps_drain (s : state) :
  reachable arg_to_string s →
  ∃ n s', nsteps down_step n s s' ∧ logQueue s' = [].
Proof.
  remember (2 * remaining (logQueue s) + timers s) as p eqn:Hp.
  revert s Hp. induction p as [p IH] using lt_wf_ind. intros s Hp Hreach.
  destruct (logQueue s) as [|e rest] eqn:Hq.
  - exists 0, s. split; [constructor | done].
  - destruct (down_step_enabled s Hreach) as [s1 Hstep]; [by rewrite Hq|].
    pose proof (down_step_spends s s1 (reachable_invariant s Hreach) Hstep) as Hspent.
    rewrite Hq in Hspent.
    destruct (IH (2 * remaining (logQueue s1) + timers s1)) with (s := s1)
      as (n & s' & Hrun & Hempty); [lia | done | |].
    { apply (reachable_step arg_to_string s); [done|]. by apply down_step_step. }
    exists (S n), s'. split; [by apply (nsteps_l _ _ _ s1) | done].
Qed.

(** A round of [logging_round] is made of steps of the service. *)
Lemma logging_round_steps (failure : option string) (m : method) (args : list Arg)
    (s s' : state) :
  logging_round arg_to_string failure m args s = Returns s' →
  rtc (step arg_to_string) s s'.
Proof.
  unfold logging_round. set (s1 := (console_call arg_to_string m args s).1).
  set (s2 := if (0 <? timers s1)%nat then timer_fired s1 else s1).
  intros Hres.
  assert (rtc (step arg_to_string) s1 s2) as Htimer.
  { subst s2. destruct (0 <? timers s1)%nat eqn:Ht; [|done].
    apply rtc_once, step_timer. by apply Nat.ltb_lt. }
  eapply rtc_l; [apply (step_call arg_to_string m args)|]. fold s1.
  etrans; [exact Htimer|].
  destruct (isProcessingQueue s2) eqn:Hflag.
  - apply rtc_once. by apply (step_settled arg_to_string failure).
  - by injection Hres as <-.
Qed.

(** One round with a message that is taken into the queue: the queue as
    it is when the request in flight settles. *)
Lemma logging_round_settles (failure : option string) (m : method) (args : list Arg)
    (message : string) (s : state) :
  join arg_to_string args = Returns message →
  includes message "Error sending log to server" = false →
  ∃ s2, logging_round arg_to_string failure m args s = resume failure s2
        ∧ logQueue s2 = logQueue s ++ [mkEntry (level_of m) message 0].
Proof.
  intros Hjoin Hinc. unfold logging_round.
  destruct (console_call_queued m args message s Hjoin Hinc) as [Hflag Hq].
  set (s1 := (console_call arg_to_string m args s).1) in *.
  set (s2 := if (0 <? timers s1)%nat then timer_fired s1 else s1).
  assert (isProcessingQueue s2 = true ∧ logQueue s2 = logQueue s1) as [Hflag2 Hq2].
  { subst s2. destruct (0 <? timers s1)%nat; [by apply timer_fired_busy | done]. }
  exists s2. rewrite Hflag2. split; [done | by rewrite Hq2].
Qed.

(** While the server is down, a round adds the message it logs and
    removes the head of the queue on its third failure only: three times
    the length of the queue, less the failures of the head, goes up by
    two. *)
Lemma logging_round_failure (reason : string) (m : method) (args : list Arg)
    (message : string) (s : state) :
  invariant s →
  join arg_to_string args = Returns message →
  includes message "Error sending log to server" = false →
  ∃ s', logging_round arg_to_string (Some reason) m args s = Returns s'
        ∧ 3 * length (logQueue s') + default 0 (retries <$> head (logQueue s))
          = 3 * length (logQueue s) + default 0 (retries <$> head (logQueue s')) + 2.
Proof.
  intros Hinv Hjoin Hinc.
  destruct (logging_round_settles (Some reason) m args message s Hjoin Hinc)
    as (s2 & -> & Hq2).
  pose proof (inv_retries s Hinv) as Hr. pose proof (inv_waiting s Hinv) as Hw.
  destruct (logQueue s) as [|e rest].
  - destruct (resume_failure reason s2 _ _ Hq2) as (s' & -> & _ & Hq').
    exists s'. split; [done|]. by rewrite Hq'.
  - destruct (resume_failure reason s2 _ _ Hq2) as (s' & -> & _ & Hq').
    exists s'. split; [done|]. rewrite Hq'.
    apply Forall_cons in Hr as [He _]. cbn [tail] in Hw.
    destruct (maxRetries <=? S (retries e))%nat eqn:Hle.
    + apply Nat.leb_le in Hle. unfold maxRetries in *.
      destruct rest as [|e' rest']; simpl.
      * lia.
      * apply Forall_cons in Hw as [Hw0 _]. rewrite length_app. simpl. rewrite Hw0. lia.
    + simpl. rewrite length_app. simpl. lia.
Qed.

Lemma logging_rounds_failure (reason : string) (m : method) (args : list Arg)
    (message : string) (n : nat) (s : state) :
  reachable arg_to_string s →
  join arg_to_string args = Returns message →
  includes message "Error sending log to server" = false →
  ∃ s', logging_rounds arg_to_string n (Some reason) m args s = Returns s'
        ∧ reachable arg_to_string s'
        ∧ 3 * length (logQueue s') + default 0 (retries <$> head (logQueue s))
          = 3 * length (logQueue s) + default 0 (retries <$> head (logQueue s'))
            + 2 * n.
Proof.
  intros Hreach Hjoin Hinc. revert s Hreach. induction n as [|n IH]; intros s Hreach.
  - exists s. split; [done|]. split; [done | lia].
  - destruct (logging_round_failure reason m args message s
                (reachable_invariant s Hreach) Hjoin Hinc) as (s1 & Hround & Hone).
    destruct (IH s1) as (s' & Hrun & Hreach' & Hrest).
    { apply (reachable_rtc s); [done|]. by apply (logging_round_steps (Some reason) m args). }
    exists s'. cbn [logging_rounds]. rewrite Hround. cbn [bind].
    split; [done|]. split; [done | lia].
Qed.

(** While the server answers, a round removes an entry for the one it
    adds. *)
Lemma logging_rounds_success (m : method) (args : list Arg) (message : string)
    (n : nat) (s : state) :
  reachable arg_to_string s →
  join arg_to_string args = Returns message →
  includes message "Error sending log to server" = false →
  ∃ s', logging_rounds arg_to_string n None m args s = Returns s'
        ∧ reachable arg_to_string s'
        ∧ length (logQueue s') = length (logQueue s).
Proof.
  intros Hreach Hjoin Hinc. revert s Hreach. induction n as [|n IH]; intros s Hreach.
  - by exists s.
  - destruct (logging_round_settles None m args message s Hjoin Hinc) as (s2 & Hround & Hq2).
    set (s1 := finally (tail (logQueue s2)) (console s2)
                 (match logQueue s2 with [] => shifted s2 | _ => S (shifted s2) end) s2).
    assert (logging_round arg_to_string None m args s = Returns s1) as Hround1
      by (by rewrite Hround).
    destruct (IH s1) as (s' & Hrun & Hreach' & Hlen).
    { apply (reachable_rtc s); [done|]. by apply (logging_round_steps None m args). }
    exists s'. cbn [logging_rounds]. rewrite Hround1. cbn [bind].
    split; [done|]. split; [done|]. rewrite Hlen. subst s1. cbn [finally logQueue].
    rewrite Hq2. destruct (logQueue s); simpl; [done|]. rewrite length_app. simpl. lia.
Qed.

(** C7, as the code has it.  In every state the logging service can
    reach:

    - an overridden console method passes its arguments to the original
      method, once and before anything else, and what its caller gets is
      decided by [args.join(' ')] alone, whatever requests have failed;
    - a call whose message is queued leaves a request in flight;
    - when the request in flight fails, [processQueue] completes without
      an exception; the entry at the head is removed if that was its
      [maxRetries]-th request and stays at the head, with one more
      failure counted, if not;
    - no entry is sent more than [maxRetries] times;
    - an idle service with a queue that is not empty has a timer pending,
      and the timer sends the head again;
    - once the application logs nothing more, a server that stays
      unreachable lets the service take at most [2 * maxRetries] steps
      for every queued entry, besides the timers already pending, and the
      service only comes to rest with the queue empty, which it does;
    - but while the application goes on logging the queue has no bound:
      of the messages logged one to a failed request, two out of three
      are still queued, where the same logging with a server that
      answers leaves the queue the length it had. *)
Theorem logging_failures_contained (s : state) :
  reachable arg_to_string s →
  (∀ m args,
     reachable arg_to_string (console_call arg_to_string m args s).1
     ∧ console (console_call arg_to_string m args s).1 = console s ++ [Forwarded m args]
     ∧ (console_call arg_to_string m args s).2
       = match join arg_to_string args with
         | Returns _ => Returns ()
         | Throws e => Throws e
         end)
  ∧ (∀ m args message,
       join arg_to_string args = Returns message →
       includes message "Error sending log to server" = false →
       isProcessingQueue (console_call arg_to_string m args s).1 = true
       ∧ logQueue (console_call arg_to_string m args s).1
         = logQueue s ++ [mkEntry (level_of m) message 0])
  ∧ (isProcessingQueue s = true →
     ∃ e rest,
       logQueue s = e :: rest
       ∧ attempts (shifted s) (posts s) = S (retries e)
       ∧ ∀ reason,
           ∃ s', resume (Some reason) s = Returns s'
                 ∧ step arg_to_string s s'
                 ∧ isProcessingQueue s' = false
                 ∧ logQueue s'
                   = if decide (attempts (shifted s) (posts s) = maxRetries) then rest
                     else mkEntry (level e) (message e) (S (retries e)) :: rest)
  ∧ (∀ id, attempts id (posts s) ≤ maxRetries)
  ∧ (isProcessingQueue s = false →
     ∀ e rest,
       logQueue s = e :: rest →
       0 < timers s
       ∧ isProcessingQueue (timer_fired s) = true
       ∧ logQueue (timer_fired s) = logQueue s
       ∧ posts (timer_fired s) = posts s ++ [mkPost (shifted s) (level e) (message e)])
  ∧ (∀ n s',
       nsteps down_step n s s' →
       reachable arg_to_string s'
       ∧ n ≤ 2 * maxRetries * length (logQueue s) + timers s
       ∧ ((∀ s'', ¬ down_step s' s'') → logQueue s' = []))
  ∧ (∃ n s', nsteps down_step n s s' ∧ logQueue s' = [])
  ∧ (∀ n reason m args message,
       join arg_to_string args = Returns message →
       includes message "Error sending log to server" = false →
       ∃ s', logging_rounds arg_to_string n (Some reason) m args s = Returns s'
             ∧ reachable arg_to_string s'
             ∧ 3 * length (logQueue s) + 2 * n ≤ 3 * length (logQueue s') + 2)
  ∧ (∀ n m args message,
       join arg_to_string args = Returns message →
       includes message "Error sending log to server" = false →
       ∃ s', logging_rounds arg_to_string n None m args s = Returns s'
             ∧ reachable arg_to_string s'
             ∧ length (logQueue s') = length (logQueue s)).
Proof.
  intros Hreach. pose proof (reachable_invariant s Hreach) as Hinv.
  split; [|split; [|split; [|split; [|split; [|split; [|split; [|split]]]]]]].
  - intros m args. split; [|split; [apply console_console_call|]].
    + apply (reachable_step arg_to_string s); [done | constructor].
    + unfold console_call. by destruct (join arg_to_string args).
  - intros m args message. apply console_call_queued.
  - intros Hflag. pose proof (inv_flag s Hinv Hflag) as Hne.
    pose proof (inv_head s Hinv) as Hh. pose proof (inv_retries s Hinv) as Hr.
    rewrite Hflag in Hh.
    destruct (logQueue s) as [|e rest] eqn:Hq; [done|].
    apply Forall_cons in Hr as [He _].
    exists e, rest. split; [done|]. split; [lia|]. intros reason.
    destruct (resume_failure reason s e rest Hq) as (s' & Hres & Hidle & Hq').
    exists s'. split; [done|]. split; [by apply (step_settled _ (Some reason))|].
    split; [done|]. rewrite Hq', Hh.
    destruct (maxRetries <=? S (retries e))%nat eqn:Hle.
    + apply Nat.leb_le in Hle. rewrite decide_True; [done | lia].
    + apply Nat.leb_gt in Hle. rewrite decide_False; [done | lia].
  - apply Hinv.
  - intros Hflag e rest Hq. split.
    + apply reachable_scheduled; [done | done | by rewrite Hq].
    + by apply (timer_fired_idle s e rest).
  - intros n s' Hrun. destruct (down_steps_spend n s s' Hreach Hrun) as [Hreach' Hle].
    split; [done|]. split.
    + pose proof (remaining_bound (logQueue s)). lia.
    + intros Hstuck. destruct (logQueue s') as [|e rest] eqn:Hq; [done|].
      destruct (down_step_enabled s' Hreach') as [s'' Hstep]; [by rewrite Hq|].
      by destruct (Hstuck s'').
  - by apply down_steps_drain.
  - intros n reason m args message Hjoin Hinc.
    destruct (logging_rounds_failure reason m args message n s Hreach Hjoin Hinc)
      as (s' & Hrun & Hreach' & Hlen).
    exists s'. split; [done|]. split; [done|].
    pose proof (inv_retries s Hinv) as Hr.
    destruct (logQueue s) as [|e rest]; cbn [head fmap option_fmap option_map default] in Hlen.
    + simpl. lia.
    + apply Forall_cons in Hr as [He _]. unfold maxRetries in He. simpl in *. lia.
  - intros n m args message. by apply logging_rounds_success.
Qed.

End Logging.

Lemma logging_failures_contained_witness :
  let s := (LoggingService.console_call (λ x : string, Returns x) LoggingService.Log
              ["hello"%string] LoggingService.initial).1 in
  ∃ s', LoggingService.resume (Some "Network Error"%string) s = Returns s'
        ∧ LoggingService.logQueue s' = [LoggingService.mkEntry "INFO" "hello" 1].
Proof.
  intros s.
  assert (LoggingService.reachable (λ x : string, Returns x) s) as Hreach.
  { eapply LoggingService.reachable_step; [apply LoggingService.reachable_initial|].
    constructor. }
  destruct (logging_failures_contained (λ x : string, Returns x) s Hreach)
    as (_ & _ & Hsettle & _).
  destruct (Hsettle eq_refl) as (e & rest & Hq & _ & Hfail).
  destruct (Hfail "Network Error"%string) as (s' & Hres & _ & _ & Hq').
  exists s'. split; [exact Hres|].
  injection Hq as <- <-. exact Hq'.
Defined.

(** C7 as stated fails: with the log server down, six messages logged
    one to a failed request leave four of them in the queue, and the
    queue is one entry longer with every further message but each third;
    the same six calls with a server that answers leave the queue
    empty. *)
Lemma logging_outpaces_unreachable_server :
  let rounds failure :=
    LoggingService.logging_rounds (λ x : string, Returns x) 6 failure
      LoggingService.Log ["tick"%string] LoggingService.initial in
  (∃ s, rounds (Some "Network Error"%string) = Returns s
        ∧ LoggingService.reachable (λ x : string, Returns x) s
        ∧ length (LoggingService.logQueue s) = 4
        ∧ length (LoggingService.posts s) = 6)
  ∧ (∃ s, rounds None = Returns s
          ∧ LoggingService.reachable (λ x : string, Returns x) s
          ∧ length (LoggingService.logQueue s) = 0
          ∧ length (LoggingService.posts s) = 6).
Proof.
  intros rounds. split.
  - destruct (logging_rounds_failure (λ x : string, Returns x) "Network Error"
                LoggingService.Log ["tick"%string] "tick" 6 LoggingService.initial)
      as (s & Hrun & Hreach & _); [constructor | done | done |].
    exists s. split; [exact Hrun|]. split; [exact Hreach|].
    assert (rounds (Some "Network Error"%string) = Returns s) as Hrun' by exact Hrun.
    vm_compute in Hrun'. injection Hrun' as <-. by split.
  - destruct (logging_rounds_success (λ x : string, Returns x)
                LoggingService.Log ["tick"%string] "tick" 6 LoggingService.initial)
      as (s & Hrun & Hreach & _); [constructor | done | done |].
    exists s. split; [exact Hrun|]. split; [exact Hreach|].
    assert (rounds None = Returns s) as Hrun' by exact Hrun.
    vm_compute in Hrun'. injection Hrun' as <-. by split.
Qed.

(** A log server that is down: the entry is posted three times, each
    failure is reported on the original console, and after the third the
    entry is dropped with a warning. *)
Lemma unreachable_server_run :
  let fail s :=
    match LoggingService.resume (Some "Network Error"%string) s with
    | Returns s' => s'
    | Throws _ => s
    end in
  let s0 := (LoggingService.console_call (λ x : string, Returns x) LoggingService.Log
               ["hello"%string] LoggingService.initial).1 in
  let s3 := fail (LoggingService.timer_fired (fail (LoggingService.timer_fired (fail s0)))) in
  LoggingService.logQueue s3 = []
  ∧ length (LoggingService.posts s3) = 3
  ∧ LoggingService.console s3
    = [ LoggingService.Forwarded LoggingService.Log ["hello"%string];
        LoggingService.SendError "Network Error";
        LoggingService.SendError "Network Error";
        LoggingService.SendError "Network Error";
        LoggingService.GaveUp "hello" ].
Proof. vm_compute. repeat split; reflexivity. Qed.

(* ===================================================================== *)
(** * Further properties *)
(* ===================================================================== *)

(** ** The application's state *)

Section Application.

Lemma truthy_prop_returns (v : JSValue) (k : string) :
  truthy v = true → ∃ x, prop v k = Returns x.
Proof.
  intros Htr. apply truthy_not_nullish in Htr as [Hu Hn]. by apply prop_returns.
Qed.

Lemma truthy_index_returns (v : JSValue) (i : nat) :
  truthy v = true → ∃ x, index v i = Returns x.
Proof. destruct v; try done; simpl; eauto. Qed.

(** X1.  [getCurrentVisualization] never throws, whatever the state
    holds: it returns [null], or what is at the selected index of
    [visualizations]. *)
Theorem getCurrentVisualization_returns (st : App.state) :
  ∃ v, App.getCurrentVisualization st = Returns v
       ∧ (v = JNull ∨ v = App.visualization_at st (App.selectedVisualization st)).
Proof.
  unfold App.getCurrentVisualization, App.visualization_at.
  destruct (truthy (App.visualizationData st)) eqn:Hdata; simpl; [|eauto].
  destruct (truthy_prop_returns _ "visualizations" Hdata) as [vs ->]. simpl.
  destruct (truthy vs) eqn:Hvs; simpl; [|eauto].
  destruct (truthy_prop_returns vs "length" Hvs) as [len ->]. simpl.
  destruct (App.strict_eq_zero len); [eauto|].
  destruct (truthy_index_returns vs (App.selectedVisualization st) Hvs) as [v Hv].
  rewrite Hv. eauto.
Qed.

Lemma listed_Some (st : App.state) (l : list JSValue) :
  AppFlow.listed st = Some l →
  truthy (App.visualizationData st) = true
  ∧ prop (App.visualizationData st) "visualizations" = Returns (JArr l).
Proof.
  unfold AppFlow.listed. destruct (truthy (App.visualizationData st)); [|done].
  destruct (prop (App.visualizationData st) "visualizations") as [[]|]; try done.
  by intros [= ->].
Qed.

Lemma getCurrentVisualization_listed (st : App.state) (l : list JSValue) :
  AppFlow.listed st = Some l →
  App.getCurrentVisualization st
  = Returns (match l with
             | [] => JNull
             | _ :: _ => default JUndefined (l !! App.selectedVisualization st)
             end).
Proof.
  intros [Hdata Hvs]%listed_Some. unfold App.getCurrentVisualization.
  rewrite Hdata, Hvs. simpl. by destruct l.
Qed.

(** X2.  What the display is given after the selection changes.  When a
    dataset with a non-empty [visualizations] array is delivered, it is
    the first visualization of the new data, whatever was selected
    before; when the user clicks the option at [index] of the listed
    visualizations, it is the visualization at that index. *)
Theorem selection_shows (st : App.state) :
  (∀ data first rest,
     prop data "visualizations" = Returns (JArr (first :: rest)) →
     App.getCurrentVisualization (App.handleDataProcessed data st) = Returns first)
  ∧ (∀ l index viz,
       AppFlow.listed st = Some l → l !! index = Some viz →
       App.getCurrentVisualization (AppFlow.onSelect index st) = Returns viz).
Proof.
  split.
  - intros data first rest Hvs.
    assert (truthy data = true) as Hdata.
    { destruct data as [| |b|q|s|l|o]; try done. by destruct s. }
    rewrite (getCurrentVisualization_listed _ (first :: rest)); [done|].
    unfold AppFlow.listed. simpl. by rewrite Hdata, Hvs.
  - intros l index viz Hl Hviz.
    rewrite (getCurrentVisualization_listed _ l); [|exact Hl].
    simpl. rewrite Hviz. by destruct l.
Qed.

Lemma selection_shows_witness :
  let first := JObj {[ "type" := JStr "bar" ]} in
  let second := JObj {[ "type" := JStr "pie" ]} in
  let data := JObj {[ "visualizations" := JArr [first; second] ]} in
  App.getCurrentVisualization (App.handleDataProcessed data (App.mkState JNull 7))
  = Returns first
  ∧ App.getCurrentVisualization
      (AppFlow.onSelect 1 (App.handleDataProcessed data App.initial))
    = Returns second.
Proof.
  intros first second data. split.
  - apply (proj1 (selection_shows (App.mkState JNull 7)) data first [second]).
    reflexivity.
  - apply (proj2 (selection_shows (App.handleDataProcessed data App.initial))
             [first; second] 1%nat second); reflexivity.
Defined.

(** What [handleEditorUpdate] sets on a state whose visualizations are an
    array. *)
Lemma handleEditorUpdate_listed (updates : JSValue) (st : App.state) (l : list JSValue) :
  AppFlow.listed st = Some l →
  App.handleEditorUpdate updates st
  = Returns (App.mkState
               (JObj (<["visualizations" :=
                          JArr (array_set l (App.selectedVisualization st)
                                  (JObj (own_props updates
                                         ∪ own_props (default JUndefined
                                              (l !! App.selectedVisualization st)))))]>
                        (own_props (App.visualizationData st))))
               (App.selectedVisualization st)).
Proof.
  intros [Hdata Hvs]%listed_Some. unfold App.handleEditorUpdate.
  rewrite Hdata, Hvs. simpl. by rewrite object_spread_two, object_spread_one.
Qed.

Lemma listed_after_update (updates : JSValue) (st : App.state) (l : list JSValue) :
  AppFlow.listed st = Some l →
  AppFlow.listed (App.after (App.handleEditorUpdate updates) st)
  = Some (array_set l (App.selectedVisualization st)
            (JObj (own_props updates
                   ∪ own_props (default JUndefined (l !! App.selectedVisualization st))))).
Proof.
  intros Hl. unfold App.after. rewrite (handleEditorUpdate_listed updates st l Hl).
  unfold AppFlow.listed. simpl. by rewrite field_insert_eq.
Qed.

(** X3.  An editor update takes effect: on a state whose visualizations
    are an array, every field that the update names has the update's
    value in the selected visualization afterwards, and that
    visualization is what the display is given. *)
Theorem editor_update_applies (updates : JSValue) (st : App.state) (l : list JSValue) :
  AppFlow.listed st = Some l →
  let st' := App.after (App.handleEditorUpdate updates) st in
  ∃ current,
    App.getCurrentVisualization st' = Returns (JObj current)
    ∧ ∀ k v, own_props updates !! k = Some v → current !! k = Some v.
Proof.
  intros Hl st'. subst st'.
  pose proof (listed_after_update updates st l Hl) as Hl'.
  rewrite (getCurrentVisualization_listed _ _ Hl').
  assert (App.selectedVisualization (App.after (App.handleEditorUpdate updates) st)
          = App.selectedVisualization st) as ->.
  { unfold App.after. by rewrite (handleEditorUpdate_listed updates st l Hl). }
  set (merged := own_props updates ∪ _).
  exists merged. split.
  - pose proof (array_set_lookup_eq l (App.selectedVisualization st) (JObj merged)) as Hset.
    destruct (array_set l _ _) as [|x xs] eqn:Harr; [by rewrite lookup_nil in Hset|].
    by rewrite Hset.
  - intros k v Hk. unfold merged. by apply lookup_union_Some_l.
Qed.

Lemma editor_update_applies_witness :
  let viz := JObj {[ "type" := JStr "plotly"; "plotlyData" := JArr [] ]} in
  let st := App.mkState (JObj {[ "visualizations" := JArr [viz] ]}) 0 in
  let updates := JObj {[ "plotlyData" := JArr [JObj {[ "type" := JStr "bar" ]}] ]} in
  ∃ current,
    App.getCurrentVisualization (App.after (App.handleEditorUpdate updates) st)
    = Returns (JObj current)
    ∧ current !! "plotlyData" = Some (JArr [JObj {[ "type" := JStr "bar" ]}]).
Proof.
  intros viz st updates.
  destruct (editor_update_applies updates st [viz] eq_refl) as (current & Hc & Hk).
  exists current. split; [exact Hc|]. by apply Hk.
Defined.

Lemma length_array_set (l : list JSValue) (i : nat) (v : JSValue) :
  length (array_set l i v) = length l `max` S i.
Proof.
  unfold array_set. case_decide.
  - rewrite length_insert. lia.
  - rewrite !length_app, length_replicate. simpl. lia.
Qed.

(** While the editor is mounted, the selection points at a listed
    visualization. *)
Lemma editor_mounted_in_range (st : App.state) (l : list JSValue) :
  AppFlow.listed st = Some l → AppFlow.editor_mounted st = true →
  App.selectedVisualization st < length l.
Proof.
  intros Hl Hm. unfold AppFlow.editor_mounted, AppFlow.current_is_plotly in Hm.
  rewrite (getCurrentVisualization_listed st l Hl) in Hm.
  apply andb_prop in Hm as [_ Hm].
  destruct l as [|x xs]; [done|].
  destruct ((x :: xs) !! App.selectedVisualization st) eqn:Hsel; [|done].
  by apply lookup_lt_Some in Hsel.
Qed.

(** X4.  In every state the application reaches, the selection is an
    index of the listed visualizations whenever there are any, and an
    update from the mounted editor replaces a visualization in place:
    their number stays the same. *)
Theorem selection_in_range (st : App.state) :
  AppFlow.reachable st →
  (∀ l, AppFlow.listed st = Some l → l ≠ [] → App.selectedVisualization st < length l)
  ∧ (∀ updates l,
       AppFlow.listed st = Some l → AppFlow.editor_mounted st = true →
       ∃ l', AppFlow.listed (App.after (App.handleEditorUpdate updates) st) = Some l'
             ∧ length l' = length l).
Proof.
  intros Hreach. split.
  - induction Hreach as [|st st' _ IH Hstep]; [done|].
    destruct Hstep as [data st | detail st | index l0 st Hl0 Hindex | updates l0 st Hl0 Hm].
    + intros l _ Hne. simpl. destruct l; [done | simpl; lia].
    + unfold App.handleRetryUpdate. case_match; [|exact IH].
      intros l _ Hne. simpl. destruct l; [done | simpl; lia].
    + intros l Hl _. unfold AppFlow.listed, AppFlow.onSelect in *. simpl in *.
      rewrite Hl0 in Hl. by injection Hl as <-.
    + intros l Hl _. rewrite (listed_after_update updates st l0 Hl0) in Hl.
      injection Hl as <-.
      unfold App.after. rewrite (handleEditorUpdate_listed updates st l0 Hl0). simpl.
      rewrite length_array_set. pose proof (editor_mounted_in_range st l0 Hl0 Hm). lia.
  - intros updates l Hl Hm. eexists. split; [by apply listed_after_update|].
    rewrite length_array_set. pose proof (editor_mounted_in_range st l Hl Hm). lia.
Qed.

Lemma selection_in_range_witness :
  let viz := JObj {[ "type" := JStr "plotly" ]} in
  let data := JObj {[ "visualizations" := JArr [viz; viz] ]} in
  let st := AppFlow.onSelect 1 (App.handleDataProcessed data App.initial) in
  App.selectedVisualization st < 2.
Proof.
  intros viz data st.
  assert (AppFlow.reachable st) as Hreach.
  { eapply AppFlow.reachable_step.
    - eapply AppFlow.reachable_step; [apply AppFlow.reachable_initial|].
      apply (AppFlow.step_data data).
    - apply (AppFlow.step_select 1 [viz; viz]); [reflexivity | simpl; lia]. }
  apply (proj1 (selection_in_range st Hreach) [viz; viz]); [reflexivity | done].
Defined.

End Application.

(** ** The selector *)

Section Selector.
Import VisualizationSelector.

Lemma options_from_spec (selectedIndex : nat) (l : list JSValue) (start : nat) :
  Forall (λ viz, viz ≠ JUndefined ∧ viz ≠ JNull) l →
  ∃ options,
    options_from selectedIndex start l = Returns options
    ∧ length options = length l
    ∧ ∀ i o, options !! i = Some o →
        position o = start + i
        ∧ selected o = (selectedIndex =? start + i)%nat
        ∧ ∃ viz, l !! i = Some viz
                 ∧ prop viz "title" = Returns (title o)
                 ∧ prop viz "type" = Returns (type o).
Proof.
  revert start. induction l as [|viz l IH]; intros start Hall.
  - exists []. split; [done|]. split; [done|].
    intros i o Hi. by rewrite lookup_nil in Hi.
  - apply Forall_cons in Hall as [[Hu Hn] Hall].
    destruct (IH (S start) Hall) as (options & Hopts & Hlen & Hspec).
    destruct (prop_returns viz "title" Hu Hn) as [t Ht].
    destruct (prop_returns viz "type" Hu Hn) as [ty Hty].
    cbn [options_from]. unfold option_of. rewrite Ht, Hty. cbn [bind]. rewrite Hopts.
    cbn [bind]. eexists. split; [reflexivity|]. split; [simpl; by rewrite Hlen|].
    intros [|i] o Hi.
    + injection Hi as <-. simpl. rewrite Nat.add_0_r. repeat split; eauto.
    + simpl in Hi. destruct (Hspec i o Hi) as (Hp & Hs & viz' & Hl & Ht' & Hty').
      replace (start + S i) with (S start + i) by lia. repeat split; eauto.
Qed.

Lemma options_from_returns (selectedIndex : nat) (l : list JSValue) (start : nat)
    (options : list option_view) :
  options_from selectedIndex start l = Returns options →
  Forall (λ viz, viz ≠ JUndefined ∧ viz ≠ JNull) l.
Proof.
  revert start options. induction l as [|viz l IH]; intros start options Hr; [constructor|].
  cbn [options_from] in Hr. unfold option_of in Hr.
  destruct (nullish_or_not viz) as [-> | [-> | Hviz]]; [done | done |].
  constructor; [exact Hviz|].
  destruct Hviz as [Hu Hn].
  destruct (prop_returns viz "title" Hu Hn) as [t Ht].
  destruct (prop_returns viz "type" Hu Hn) as [ty Hty].
  rewrite Ht, Hty in Hr. cbn [bind] in Hr.
  destruct (options_from selectedIndex (S start) l) as [os|e] eqn:Hos; [|done].
  by apply (IH (S start) os).
Qed.

(** X5.  On an array of visualizations the function of the selector
    returns its element tree exactly when no entry is [null] or
    [undefined], and throws on the read of [viz.title] otherwise.  The
    tree has one option per visualization, in order, whose children are
    the [title] and the [type] of its visualization as they are, and the
    class [selected] is on the option at the selected index and on no
    other.  What React makes of a child that is not text is not part of
    the statement. *)
Theorem selector_options (l : list JSValue) (selectedIndex : nat) :
  ((∃ options, render (JArr l) selectedIndex = Returns options)
   ↔ Forall (λ viz, viz ≠ JUndefined ∧ viz ≠ JNull) l)
  ∧ ∀ options,
      render (JArr l) selectedIndex = Returns options →
      length options = length l
      ∧ ∀ i o, options !! i = Some o →
          position o = i
          ∧ (selected o = true ↔ i = selectedIndex)
          ∧ ∃ viz, l !! i = Some viz
                   ∧ prop viz "title" = Returns (title o)
                   ∧ prop viz "type" = Returns (type o).
Proof.
  split.
  - split.
    + intros [options Hr]. by apply (options_from_returns selectedIndex l 0 options).
    + intros Hall.
      destruct (options_from_spec selectedIndex l 0 Hall) as (options & Hr & _). eauto.
  - intros options Hr.
    pose proof (options_from_returns selectedIndex l 0 options Hr) as Hall.
    destruct (options_from_spec selectedIndex l 0 Hall) as (options' & Hr' & Hlen & Hspec).
    unfold render in Hr. rewrite Hr' in Hr. injection Hr as <-.
    split; [exact Hlen|]. intros i o Hi.
    destruct (Hspec i o Hi) as (Hp & Hs & Hviz). simpl in Hp, Hs.
    split; [exact Hp|]. split; [|exact Hviz].
    rewrite Hs, Nat.eqb_eq. split; congruence.
Qed.

Lemma selector_options_witness :
  let visualizations :=
    [JObj {[ "title" := JStr "A"; "type" := JStr "bar" ]};
     JObj {[ "title" := JStr "B"; "type" := JStr "plotly" ]}] in
  ∃ options,
    render (JArr visualizations) 1 = Returns options ∧ length options = 2.
Proof.
  intros visualizations.
  destruct (selector_options visualizations 1) as [_ Hspec].
  eexists. split; [reflexivity|]. by apply Hspec.
Defined.

End Selector.

(** ** More on the render pipeline *)

Section Display.
Import VisualizationDisplay.

(** The loop of the validator stops at the first trace whose check does
    not return [true]: after traces that pass, an exception of the next
    check is the exception of the loop. *)
Lemma validTraces_throws (before after : list JSValue) (trace : JSValue) (e : JSError) :
  validTraces before = Returns true →
  validTrace trace = Throws e →
  validTraces (before ++ trace :: after) = Throws e.
Proof.
  intros Hbefore Htrace. induction before as [|t before IH]; simpl.
  - by rewrite Htrace.
  - simpl in Hbefore. destruct (validTrace t) as [[]|e']; simpl in *; try done.
    by apply IH.
Qed.

Lemma getPlotlyLayout_returns (visualization : JSValue) :
  truthy visualization = true → ∃ layout, getPlotlyLayout visualization = Returns layout.
Proof.
  intros Htr. unfold getPlotlyLayout.
  destruct (truthy_prop_returns visualization "title" Htr) as [t ->].
  destruct (truthy_prop_returns visualization "plotlyLayout" Htr) as [pl ->].
  simpl. destruct (truthy pl); eauto.
Qed.

(** X6.  A [null] (or [undefined]) trace makes the render throw: when
    the traces before it pass the validator's loop, the read of
    [trace.type] raises a [TypeError] in [isValidPlotlyData], and the
    render of the display component ends with that exception, where a
    trace that is merely malformed gives the error panel. *)
Theorem render_throws_on_null_trace (st : state) (visualization : JSValue)
    (before after : list JSValue) (trace : JSValue) :
  plotly_with visualization (JArr (before ++ trace :: after)) →
  validTraces before = Returns true →
  trace = JNull ∨ trace = JUndefined →
  isValidPlotlyData (JArr (before ++ trace :: after)) = Throws TypeError
  ∧ render st visualization = Throws TypeError.
Proof.
  intros Hwith Hbefore Hnull.
  assert (isValidPlotlyData (JArr (before ++ trace :: after)) = Throws TypeError) as Hv.
  { unfold isValidPlotlyData. cbn [truthy negb].
    replace (length (before ++ trace :: after) =? 0)%nat with false
      by (rewrite length_app; simpl; by rewrite Nat.add_succ_r).
    apply validTraces_throws; [done|]. by destruct Hnull as [-> | ->]. }
  split; [exact Hv|].
  by rewrite (render_plotly st visualization _ Hwith eq_refl), Hv.
Qed.

Lemma render_throws_on_null_trace_witness :
  let bar :=
    JObj {[ "type" := JStr "bar"; "x" := JArr [JStr "a"]; "y" := JArr [JInt 1] ]} in
  let visualization :=
    JObj {[ "type" := JStr "plotly"; "plotlyData" := JArr [bar; JNull] ]} in
  render (mkState None false 0) visualization = Throws TypeError.
Proof.
  intros bar visualization.
  apply (render_throws_on_null_trace _ visualization [bar] [] JNull).
  - eexists. split; [reflexivity|]. by split.
  - reflexivity.
  - by left.
Defined.

(** X7.  The error panels the display can show are the visualization's
    own [error], "Missing Plotly data" and "Invalid data structure": the
    panel "Failed to process visualization data" is never rendered,
    because the sanitizer only fails on what the validator has rejected
    before. *)
Theorem render_error_panels (st : state) (visualization message : JSValue) :
  render st visualization = Returns (ErrorPanel message) →
  (prop visualization "error" = Returns message ∧ truthy message = true)
  ∨ message = msg_missing_data
  ∨ message = msg_invalid_data.
Proof.
  unfold render. destruct (truthy visualization) eqn:Htr; simpl; [|done].
  destruct (truthy_prop_returns visualization "error" Htr) as [error ->].
  destruct (truthy_prop_returns visualization "type" Htr) as [type ->].
  destruct (truthy_prop_returns visualization "title" Htr) as [title ->].
  destruct (truthy_prop_returns visualization "plotlyData" Htr) as [pd ->]. simpl.
  destruct (truthy error) eqn:Herr; [intros [= <-]; by left|].
  destruct (strict_eq_str type "plotly"); [|done].
  destruct (truthy pd) eqn:Hpd; simpl; [|intros [= <-]; auto].
  destruct (isValidPlotlyData pd) as [[]|e'] eqn:Hv; simpl; [| intros [= <-]; auto | done].
  destruct (getPlotlyLayout_returns visualization Htr) as [layout ->]. simpl.
  apply isValidPlotlyData_array in Hv as [traces ->]. simpl.
  by destruct (plotlyError st).
Qed.

Lemma render_error_panels_witness :
  let visualization := JObj {[ "type" := JStr "plotly"; "plotlyData" := JArr [] ]} in
  render (mkState None false 0) visualization = Returns (ErrorPanel msg_invalid_data).
Proof.
  intros visualization.
  assert (render (mkState None false 0) visualization = Returns (ErrorPanel msg_invalid_data))
    as Hr by reflexivity.
  destruct (render_error_panels _ _ _ Hr) as [[_ _] | [_ | _]]; exact Hr.
Defined.

End Display.

(** ** The validator and the sanitizer together *)

Section Repair.
Import VisualizationDisplay.

(** On a trace that is an object the validator looks at five fields, and
    on another value that is not [null] or [undefined] it sees what the
    copy of the value would have. *)
Lemma validTrace_own_props (trace : JSValue) :
  trace ≠ JUndefined → trace ≠ JNull →
  validTrace trace = validTrace (JObj (own_props trace)).
Proof.
  intros Hu Hn. unfold validTrace.
  rewrite !(prop_own_props trace) by done. reflexivity.
Qed.

Lemma validTrace_ext (o o' : gmap string JSValue) :
  field o "type" = field o' "type" →
  field o "x" = field o' "x" → field o "y" = field o' "y" →
  field o "values" = field o' "values" → field o "labels" = field o' "labels" →
  validTrace (JObj o) = validTrace (JObj o').
Proof.
  intros Hty Hx Hy Hv Hl. unfold validTrace. simpl.
  by rewrite Hty, Hx, Hy, Hv, Hl.
Qed.

(** What an accepted trace looks like. *)
Lemma validTrace_true (trace : JSValue) :
  validTrace trace = Returns true →
  let t := own_props trace in
  trace ≠ JUndefined ∧ trace ≠ JNull
  ∧ truthy (field t "type") = true
  ∧ (strict_eq_str (field t "type") "scatter" || strict_eq_str (field t "type") "bar" = true →
     isArray (field t "x") = true ∧ isArray (field t "y") = true).
Proof.
  intros Hv t. destruct (nullish_or_not trace) as [-> | [-> | [Hu Hn]]]; [done | done |].
  split; [exact Hu|]. split; [exact Hn|].
  rewrite (validTrace_own_props trace Hu Hn) in Hv. fold t in Hv.
  unfold validTrace in Hv. simpl in Hv.
  destruct (truthy (field t "type")); simpl in Hv; [|done]. split; [done|].
  intros Hsb. rewrite orb_comm in Hsb. rewrite Hsb in Hv.
  destruct (isArray (field t "x")), (isArray (field t "y")); done.
Qed.

(** On an accepted trace the sanitizer has one thing left to do. *)
Lemma sanitizeTrace_valid (trace : JSValue) :
  validTrace trace = Returns true →
  sanitizeTrace trace = ensure_mode (own_props trace).
Proof.
  intros Hv. apply validTrace_true in Hv as (_ & _ & Hty & Hxy).
  rewrite sanitizeTrace_steps.
  rewrite ensure_type_fixed by done.
  rewrite convert_xy_fixed; [done|].
  intros Hsb. destruct (Hxy Hsb) as [Hx Hy]. unfold settled.
  rewrite Hx, Hy. by rewrite !andb_false_r.
Qed.

(** X8.  On a payload that the validator accepts, which is the only kind
    the display sanitizes, [sanitizePlotlyData] copies every trace as it
    is and only sets [mode] to ['lines+markers'] on scatter traces that
    have none: the defaulting of [type] and the promotion of [x] and [y]
    never act there. *)
Theorem sanitize_accepted_payload (traces : list JSValue) :
  isValidPlotlyData (JArr traces) = Returns true →
  ∃ out,
    sanitizePlotlyData (JArr traces) = JArr (JObj <$> out)
    ∧ length out = length traces
    ∧ ∀ i trace t, traces !! i = Some trace → out !! i = Some t →
        (∀ k, k ≠ "mode"%string → t !! k = own_props trace !! k)
        ∧ field t "mode"
          = if strict_eq_str (field (own_props trace) "type") "scatter"
               && negb (truthy (field (own_props trace) "mode"))
            then JStr "lines+markers" else field (own_props trace) "mode".
Proof.
  intros Hv. apply isValidPlotlyData_true in Hv as [_ Hall].
  exists ((λ trace, ensure_mode (own_props trace)) <$> traces).
  split; [|split].
  - simpl. f_equal. rewrite <- list_fmap_compose. apply Forall_fmap_ext.
    eapply Forall_impl; [exact Hall|]. intros trace Ht. simpl.
    by rewrite sanitizeTrace_valid.
  - by rewrite length_fmap.
  - intros i trace t Hi Ht. rewrite list_lookup_fmap, Hi in Ht.
    injection Ht as <-. split.
    + intros k Hk. unfold ensure_mode. case_match; [|done]. by rewrite lookup_insert_ne.
    + unfold ensure_mode. case_match; [|done]. by rewrite field_insert_eq.
Qed.

Lemma sanitize_accepted_payload_witness :
  let trace : gmap string JSValue :=
    {[ "type" := JStr "scatter"; "x" := JArr [JInt 1]; "y" := JArr [JInt 2] ]} in
  ∃ out,
    sanitizePlotlyData (JArr [JObj trace]) = JArr (JObj <$> out) ∧ length out = 1.
Proof.
  intros trace.
  destruct (sanitize_accepted_payload [JObj trace]) as (out & Heq & Hlen & _);
    [reflexivity|].
  by exists out.
Defined.

(** X9.  Sanitizing keeps a payload acceptable: what the validator
    accepts, it accepts again after [sanitizePlotlyData]. *)
Theorem sanitize_keeps_valid (data : JSValue) :
  isValidPlotlyData data = Returns true →
  isValidPlotlyData (sanitizePlotlyData data) = Returns true.
Proof.
  intros Hv. destruct (isValidPlotlyData_array data Hv) as [traces ->].
  apply isValidPlotlyData_true in Hv as [Hne Hall].
  simpl. apply isValidPlotlyData_true. split; [by destruct traces|].
  apply Forall_fmap. eapply Forall_impl; [exact Hall|].
  intros trace Ht. cbv beta in Ht. simpl.
  rewrite (sanitizeTrace_valid trace Ht).
  pose proof (validTrace_true trace Ht) as (Hu & Hn & _).
  rewrite (validTrace_own_props trace Hu Hn) in Ht. rewrite <- Ht.
  apply validTrace_ext; by apply field_ensure_mode_ne.
Qed.

Lemma sanitize_keeps_valid_witness :
  let data := JArr [JObj {[ "type" := JStr "pie"; "values" := JArr [JInt 1];
                            "labels" := JArr [JStr "a"] ]}] in
  isValidPlotlyData (sanitizePlotlyData data) = Returns true.
Proof.
  intros data. apply (sanitize_keeps_valid data). reflexivity.
Defined.

Lemma isArray_promote (k : string) (t : gmap string JSValue) :
  isArray (field (promote k t) k) = truthy (field t k).
Proof.
  unfold promote. destruct (truthy (field t k)) eqn:Htr; simpl.
  - destruct (isArray (field t k)) eqn:Ha; simpl; [done|]. by rewrite field_insert_eq.
  - by destruct (field t k).
Qed.

(** X10.  Sanitizing first would repair what the validator rejects: for
    a trace whose [type] is missing, ['scatter'] or ['bar'], the repaired
    trace passes the validator exactly when both [x] and [y] of the trace
    are truthy, array or not. *)
Theorem sanitized_trace_valid (trace : JSValue) :
  let t := own_props trace in
  truthy (field t "type") = false
  ∨ field t "type" = JStr "scatter" ∨ field t "type" = JStr "bar" →
  validTrace (JObj (sanitizeTrace trace))
  = Returns (truthy (field t "x") && truthy (field t "y")).
Proof.
  intros t Hty. rewrite sanitizeTrace_steps. fold t.
  set (t1 := ensure_type t).
  assert (field t1 "type" = JStr "scatter" ∨ field t1 "type" = JStr "bar") as Hty1.
  { unfold t1, ensure_type. destruct Hty as [Hf | [Hs | Hb]].
    - rewrite Hf. simpl. left. by rewrite field_insert_eq.
    - rewrite Hs. simpl. by left.
    - rewrite Hb. simpl. by right. }
  assert (field t1 "x" = field t "x" ∧ field t1 "y" = field t "y") as [Hx1 Hy1].
  { unfold t1, ensure_type. case_match; [|done]. by rewrite !field_insert_ne. }
  assert (convert_xy t1 = promote "y" (promote "x" t1)) as Hconv.
  { unfold convert_xy. by destruct Hty1 as [-> | ->]. }
  unfold validTrace. simpl.
  rewrite !field_ensure_mode_ne by done. rewrite field_convert_xy_type.
  rewrite Hconv.
  assert (isArray (field (promote "y" (promote "x" t1)) "x") = truthy (field t "x")) as ->.
  { rewrite field_promote_ne by done. by rewrite isArray_promote, Hx1. }
  assert (isArray (field (promote "y" (promote "x" t1)) "y") = truthy (field t "y")) as ->.
  { rewrite isArray_promote. rewrite field_promote_ne by done. by rewrite Hy1. }
  destruct Hty1 as [-> | ->]; simpl;
    by destruct (truthy (field t "x")), (truthy (field t "y")).
Qed.

Lemma sanitized_trace_valid_witness :
  let trace := JObj {[ "x" := JInt 5; "y" := JInt 3 ]} in
  validTrace trace = Returns false
  ∧ validTrace (JObj (sanitizeTrace trace)) = Returns true.
Proof.
  intros trace. split; [reflexivity|].
  apply (sanitized_trace_valid trace). by left.
Defined.

(** X11.  The layout that [getPlotlyLayout] returns for a visualization
    object always has a [title], an [autosize] and a [margin], and it is
    a fixed point: with the returned layout as the visualization's
    [plotlyLayout], the same layout is returned. *)
Theorem getPlotlyLayout_complete (o : gmap string JSValue) :
  ∃ layout,
    getPlotlyLayout (JObj o) = Returns layout
    ∧ is_Some (layout !! "title")
    ∧ is_Some (layout !! "autosize")
    ∧ is_Some (layout !! "margin")
    ∧ getPlotlyLayout (JObj (<["plotlyLayout" := JObj layout]> o)) = Returns layout.
Proof.
  set (d := defaultLayout (field o "title")).
  set (pl := field o "plotlyLayout").
  assert (getPlotlyLayout (JObj o)
          = Returns (if truthy pl then own_props pl ∪ d else d)) as Hfirst.
  { unfold getPlotlyLayout. simpl. fold pl d.
    destruct (truthy pl); [|done]. by rewrite object_spread_two. }
  assert (∀ layout, getPlotlyLayout (JObj (<["plotlyLayout" := JObj layout]> o))
                    = Returns (layout ∪ d)) as Hsecond.
  { intros layout. unfold getPlotlyLayout. simpl.
    rewrite (field_insert_ne o "plotlyLayout" "title") by done.
    rewrite !field_insert_eq. simpl. by rewrite object_spread_two. }
  assert (∀ k, is_Some (d !! k) → is_Some ((own_props pl ∪ d) !! k)) as Hkeep.
  { intros k [x Hx]. destruct (own_props pl !! k) eqn:E.
    - eexists. by apply lookup_union_Some_l.
    - exists x. by rewrite lookup_union_r. }
  assert (is_Some (d !! "title") ∧ is_Some (d !! "autosize") ∧ is_Some (d !! "margin"))
    as (Ht & Ha & Hm).
  { unfold d, defaultLayout. repeat split; eexists; reflexivity. }
  rewrite Hfirst. destruct (truthy pl).
  - exists (own_props pl ∪ d). split; [done|]. repeat split; try by apply Hkeep.
    rewrite Hsecond. f_equal.
    rewrite <- (assoc_L (∪)). by rewrite (idemp_L (∪) d).
  - exists d. split; [done|].
    repeat split; try done; rewrite Hsecond; f_equal; by rewrite (idemp_L (∪) d).
Qed.

End Repair.

(** ** The manual retry of the display *)

Section ManualRetry.
Context `{Coercion}.
Import VisualizationDisplay.

(** X12.  What a press on "Retry Visualization" ends in.  Without a
    source text nothing happens.  With one, the retry is counted, the
    button is released, and either the error is cleared and one event
    carrying the answer is dispatched, or an error is set and no event is
    dispatched: never both, never neither. *)
Theorem retry_outcome (visualization : JSValue) (r : response) (st : state) :
  let '(st', events) := handleRetryVisualization visualization r st in
  if cannot_retry visualization then st' = st ∧ events = []
  else
    retryCount st' = S (retryCount st)
    ∧ isRetrying st' = false
    ∧ ((plotlyError st' = None
        ∧ ∃ data, r = Answered data
                  ∧ events = [("visualization-updated"%string, data)])
       ∨ (events = [] ∧ plotlyError st' ≠ None)).
Proof.
  unfold handleRetryVisualization.
  destruct (cannot_retry visualization); [done|].
  unfold retry_try. destruct r as [data|message]; simpl.
  - destruct (prop data "visualizations") as [vs|e]; simpl; [|by auto].
    destruct (truthy vs); [|by auto].
    destruct (prop vs "length") as [len|e]; simpl; [|by auto].
    destruct (gt_zero len); simpl.
    + split; [done|]. split; [done|]. left. split; [done|]. by exists data.
    + by auto.
  - by auto.
Qed.

End ManualRetry.

(** ** The model selector, further *)

Section Models.
Context `{Coercion}.
Import ModelSelector.

(** X13.  Whatever the models endpoint answers, [fetchModels] ends with
    [loading] off, calls [onModelSelect] at most once and never when a
    model is selected already, leaves the error as it was or sets one of
    its two messages, and leaves the models as they were or stores the
    [models] of the answer. *)
Theorem fetchModels_effects (selectedModel : JSValue) (r : response) (st : state) :
  let '(st', calls) := fetchModels selectedModel r st in
  loading st' = false
  ∧ length calls ≤ 1
  ∧ (truthy selectedModel = true → calls = [])
  ∧ (error st' = error st
     ∨ error st' = Some "Failed to fetch models"%string
     ∨ error st' = Some "No models found"%string)
  ∧ (models st' = models st
     ∨ ∃ data, r = Answered data
               ∧ prop data "models" = Returns (models st')
               ∧ truthy (models st') = true).
Proof.
  unfold fetchModels. destruct r as [data|message]; simpl.
  2: { repeat split; auto. }
  destruct (truthy data) eqn:Hdata.
  - destruct (truthy_prop_returns data "models" Hdata) as [found Hfound].
    rewrite Hfound. destruct (truthy found) eqn:Hf; simpl.
    2: { repeat split; auto. }
    assert (∃ d, Answered data = Answered d
                 ∧ prop d "models" = Returns found ∧ truthy found = true) as Hstored
      by (by exists data).
    destruct (truthy selectedModel); simpl; [repeat split; auto|].
    destruct (prop found "length") as [len|e]; simpl; [|repeat split; auto].
    destruct (gt_zero len); simpl; [|repeat split; auto].
    destruct (first_model_name found) as [name|e]; simpl; repeat split; auto; done.
  - rewrite Hdata. simpl. repeat split; auto.
Qed.

(** X14.  When no model is selected and the answer lists models, the
    first of them being an object, [fetchModels] stores the list, sets no
    error, and selects the first model by its name. *)
Theorem fetchModels_selects_first (selectedModel data : JSValue) (st : state)
    (first : gmap string JSValue) (rest : list JSValue) :
  truthy selectedModel = false →
  prop data "models" = Returns (JArr (JObj first :: rest)) →
  fetchModels selectedModel (Answered data) st
  = (mkState (JArr (JObj first :: rest)) false (error st), [field first "name"]).
Proof.
  intros Hsel Hmodels.
  assert (truthy data = true) as Hdata.
  { destruct data as [| |b|q|s|l|o]; try done. by destruct s. }
  unfold fetchModels. rewrite Hdata, Hmodels, Hsel. simpl.
  replace (0 <? Z.pos (Pos.of_succ_nat (length rest)))%Z with true by done.
  reflexivity.
Qed.

(** X15.  A [null] entry at the head of the answer's models.  With no
    model selected, reading its name fails: the list is stored all the
    same, the error "Failed to fetch models" is set, and the component
    shows the error panel.  With a model selected, the list is stored
    without an error, and the render of the option list throws. *)
Theorem fetchModels_null_model (selectedModel data : JSValue) (st : state)
    (rest : list JSValue) :
  prop data "models" = Returns (JArr (JNull :: rest)) →
  let st' := (fetchModels selectedModel (Answered data) st).1 in
  models st' = JArr (JNull :: rest)
  ∧ (truthy selectedModel = false →
     error st' = Some "Failed to fetch models"%string
     ∧ render st' = Returns (ErrorPanel "Failed to fetch models"))
  ∧ (truthy selectedModel = true →
     error st' = error st
     ∧ (shown_error st = None → render st' = Throws TypeError)).
Proof.
  intros Hmodels.
  assert (truthy data = true) as Hdata.
  { destruct data as [| |b|q|s|l|o]; try done. by destruct s. }
  unfold fetchModels. rewrite Hdata, Hmodels. simpl.
  destruct (truthy selectedModel); simpl.
  - split; [done|]. split; [done|]. intros _. split; [done|].
    intros Hs. unfold render, shown_error in *. simpl. by rewrite Hs.
  - replace (0 <? Z.pos (Pos.of_succ_nat (length rest)))%Z with true by done.
    simpl. split; [done|]. split; [|done]. intros _. split; done.
Qed.

End Models.

Lemma fetchModels_selects_first_witness :
  let data := JObj {[ "models" := JArr [JObj {[ "name" := JStr "llama3" ]}] ]} in
  (@ModelSelector.fetchModels (Build_Coercion (λ _, None)) (JStr "") (Answered data)
     ModelSelector.initial).2
  = [JStr "llama3"].
Proof.
  intros data.
  by rewrite (@fetchModels_selects_first (Build_Coercion (λ _, None)) (JStr "") data
                ModelSelector.initial {[ "name" := JStr "llama3" ]} []).
Defined.

Lemma fetchModels_null_model_witness :
  let data := JObj {[ "models" := JArr [JNull] ]} in
  ModelSelector.error
    (@ModelSelector.fetchModels (Build_Coercion (λ _, None)) (JStr "") (Answered data)
       ModelSelector.initial).1
  = Some "Failed to fetch models"%string.
Proof.
  intros data.
  destruct (@fetchModels_null_model (Build_Coercion (λ _, None)) (JStr "") data
              ModelSelector.initial [] eq_refl) as (_ & Hno & _).
  by apply Hno.
Defined.

(** ** The data input *)

Section Input.
Import DataInput.

Lemma field_tag (sourceText : string) (viz : JSValue) (k : string) :
  field (own_props (tag sourceText viz)) k
  = if decide ("sourceText"%string = k) then JStr sourceText
    else field (own_props viz) k.
Proof.
  unfold tag. simpl. rewrite field_insert, object_spread_one. done.
Qed.

(** What [with_source] returns when it returns. *)
Lemma with_source_returns (sourceText : string) (data d : JSValue) :
  with_source sourceText data = Returns d →
  ∃ visualizations,
    prop data "visualizations" = Returns visualizations
    ∧ ((truthy visualizations = false
        ∧ d = JObj (<["sourceText" := JStr sourceText]> (own_props data)))
       ∨ ∃ l, visualizations = JArr l
              ∧ d = JObj (<["visualizations" := JArr (tag sourceText <$> l)]>
                            (<["sourceText" := JStr sourceText]> (own_props data)))).
Proof.
  unfold with_source. rewrite object_spread_one.
  destruct (prop data "visualizations") as [vs|e]; simpl; [|done].
  destruct (truthy vs) eqn:Hvs.
  - destruct vs; try done. intros [= <-]. eexists. split; [done|]. right. eauto.
  - intros [= <-]. exists vs. split; [done|]. left. done.
Qed.

(** X16.  The data that a text submission delivers is marked for retry:
    it carries the submitted text as [sourceText], it has as many
    visualizations as the answer, and with a text that is not empty the
    manual retry is available on each of them. *)
Theorem with_source_marks (sourceText : string) (data d : JSValue) (l : list JSValue) :
  with_source sourceText data = Returns d →
  prop data "visualizations" = Returns (JArr l) →
  ∃ o tagged,
    d = JObj o
    ∧ field o "sourceText" = JStr sourceText
    ∧ field o "visualizations" = JArr tagged
    ∧ length tagged = length l
    ∧ (sourceText ≠ ""%string →
       Forall (λ viz, VisualizationDisplay.cannot_retry viz = false) tagged).
Proof.
  intros Hd Hvs. apply with_source_returns in Hd as (vs & Hvs' & Hd).
  rewrite Hvs in Hvs'. injection Hvs' as <-.
  destruct Hd as [[Hf _] | (l' & [= <-] & ->)]; [done|].
  eexists _, (tag sourceText <$> l). split; [reflexivity|].
  split; [by rewrite field_insert_ne, field_insert_eq|].
  split; [by rewrite field_insert_eq|].
  split; [by rewrite length_fmap|].
  intros Hne. apply Forall_fmap, Forall_true. intros viz.
  unfold VisualizationDisplay.cannot_retry, tag. simpl.
  rewrite field_insert_eq. simpl. by destruct sourceText.
Qed.

Lemma with_source_marks_witness :
  let data := JObj {[ "visualizations" := JArr [JObj {[ "type" := JStr "plotly" ]}] ]} in
  ∃ o tagged,
    with_source "a,1" data = Returns (JObj o)
    ∧ field o "visualizations" = JArr tagged
    ∧ Forall (λ viz, VisualizationDisplay.cannot_retry viz = false) tagged.
Proof.
  intros data.
  destruct (with_source_marks "a,1" data _ [JObj {[ "type" := JStr "plotly" ]}]
              eq_refl eq_refl) as (o & tagged & Hd & _ & Hvs & _ & Hretry).
  exists o, tagged. rewrite <- Hd. split; [reflexivity|]. split; [exact Hvs|].
  by apply Hretry.
Defined.

(** X17.  Marking changes nothing else: every field of the answer other
    than [sourceText] and [visualizations] is delivered as it came, and
    so is every field other than [sourceText] of every visualization. *)
Theorem with_source_keeps (sourceText : string) (data d : JSValue) :
  with_source sourceText data = Returns d →
  (∀ k, k ≠ "sourceText"%string → k ≠ "visualizations"%string →
        own_props d !! k = own_props data !! k)
  ∧ (∀ l tagged i viz viz',
       prop data "visualizations" = Returns (JArr l) →
       prop d "visualizations" = Returns (JArr tagged) →
       l !! i = Some viz → tagged !! i = Some viz' →
       ∀ k, k ≠ "sourceText"%string → own_props viz' !! k = own_props viz !! k).
Proof.
  intros Hd. apply with_source_returns in Hd as (vs & Hvs & Hd). split.
  - intros k Hs Hv. destruct Hd as [[_ ->] | (l & -> & ->)]; simpl.
    + by rewrite lookup_insert_ne.
    + by rewrite !lookup_insert_ne.
  - intros l tagged i viz viz' Hl Htagged Hi Hi' k Hk.
    rewrite Hvs in Hl. injection Hl as ->.
    destruct Hd as [[Hf _] | (l' & [= <-] & ->)]; [done|].
    simpl in Htagged. rewrite field_insert_eq in Htagged. injection Htagged as <-.
    rewrite list_lookup_fmap, Hi in Hi'. injection Hi' as <-.
    unfold tag. simpl. rewrite lookup_insert_ne by done. by rewrite object_spread_one.
Qed.

Lemma with_source_keeps_witness :
  let data := JObj {[ "model" := JStr "llama3";
                      "visualizations" := JArr [JObj {[ "type" := JStr "plotly" ]}] ]} in
  ∃ d, with_source "a,1" data = Returns d
       ∧ own_props d !! "model" = Some (JStr "llama3").
Proof.
  intros data. eexists. split; [reflexivity|].
  destruct (with_source_keeps "a,1" data _ eq_refl) as [Hkeep _].
  by rewrite Hkeep.
Defined.

(** X18.  A submission that failed can be retried without typing again:
    after [processTextData] has failed on a text that is not blank, the
    Retry button's handler sends that text, and when the answer lists
    visualizations the application ends up showing the first of them,
    marked with the text. *)
Theorem failed_submission_retry (blank : string → bool) (st : state) (app : App.state)
    (message : string) (data first : JSValue) (rest : list JSValue) :
  blank ""%string = true →
  blank (text st) = false →
  prop data "visualizations" = Returns (JArr (first :: rest)) →
  let st1 := (processTextData blank (Rejected message) st).1 in
  let '(st2, fx) := handleRetryLastVisualization (Answered data) st1 in
  error st2 = NoError
  ∧ App.getCurrentVisualization (deliver fx app) = Returns (tag (text st) first)
  ∧ App.selectedVisualization (deliver fx app) = 0.
Proof.
  intros Hblank Htext Hvs.
  assert (text st ≠ ""%string) as Hne by (intros Heq; congruence).
  unfold processTextData. rewrite Htext. simpl.
  unfold handleRetryLastVisualization. simpl.
  destruct (text st) as [|c s] eqn:Ht; [done|]. simpl.
  unfold with_source. rewrite Hvs. simpl.
  split; [done|]. split; [|done].
  unfold deliver. simpl.
  rewrite (getCurrentVisualization_listed _ (tag (String c s) <$> first :: rest)); [done|].
  unfold AppFlow.listed. simpl. by rewrite field_insert_eq.
Qed.

Lemma failed_submission_retry_witness :
  let blank := λ s : string, String.eqb s "" in
  let st := mkState "a,1" "" NoError JNull (JStr "llama3") false in
  let data := JObj {[ "visualizations" := JArr [JObj {[ "type" := JStr "plotly" ]}] ]} in
  let st1 := (processTextData blank (Rejected "timeout") st).1 in
  App.selectedVisualization
    (deliver (handleRetryLastVisualization (Answered data) st1).2 App.initial) = 0.
Proof.
  intros blank st data st1.
  pose proof (failed_submission_retry blank st App.initial "timeout" data
                (JObj {[ "type" := JStr "plotly" ]}) [] eq_refl eq_refl eq_refl) as Hretry.
  cbv zeta in Hretry. fold st1 in Hretry.
  destruct (handleRetryLastVisualization (Answered data) st1) as [st2 fx].
  by destruct Hretry as (_ & _ & Hsel).
Defined.

(** X19.  The fallback of the status check asks the models endpoint and
    tests the [length] of its answer: an answer that is an object without
    a [length] of its own, which is what the endpoint sends ([{models:
    [...]}]), is reported as server "ok" and Ollama "error", whatever
    models it lists. *)
Theorem status_fallback_object `{Coercion} (message : string) (o : gmap string JSValue) :
  o !! "length" = None →
  checkServerStatus (Rejected message) (Answered (JObj o))
  = JObj {[ "server" := JStr "ok"; "ollama" := JStr "error" ]}
  ∧ status_view (checkServerStatus (Rejected message) (Answered (JObj o)))
    = Some (true, false).
Proof.
  intros Hlen. unfold checkServerStatus. simpl. unfold field. rewrite Hlen. simpl.
  split; reflexivity.
Qed.

End Input.

Lemma status_fallback_object_witness :
  @DataInput.checkServerStatus (Build_Coercion (λ _, None)) (Rejected "Network Error")
    (Answered (JObj {[ "models" := JArr [JObj {[ "name" := JStr "llama3" ]}] ]}))
  = JObj {[ "server" := JStr "ok"; "ollama" := JStr "error" ]}.
Proof.
  destruct (@status_fallback_object (Build_Coercion (λ _, None)) "Network Error"
              {[ "models" := JArr [JObj {[ "name" := JStr "llama3" ]}] ]})
    as [Hstatus _]; [reflexivity | exact Hstatus].
Defined.

(** ** The Plotly editor *)

Section Editing.
Import PlotlyEditor.
Context (parse : string → option JSValue).

(** X20.  "Apply Changes" is all or nothing.  If either text is not
    valid JSON, the application's state is untouched and the editor shows
    an error.  If both are and the editor is mounted, the selected
    visualization gets the parsed data and layout, keeps every other
    field, so that it is still a Plotly visualization and the editor
    stays mounted, and the number of visualizations is unchanged. *)
Theorem apply_changes_all_or_nothing (st : state) (app : App.state) :
  (parse (dataJson st) = None ∨ parse (layoutJson st) = None →
   handleApplyChanges parse st app
   = (mkState (dataJson st) (layoutJson st) (Some InvalidJSON) (isEditing st)
              (autoApply st), app))
  ∧ (∀ parsedData parsedLayout l,
       parse (dataJson st) = Some parsedData →
       parse (layoutJson st) = Some parsedLayout →
       AppFlow.listed app = Some l →
       AppFlow.editor_mounted app = true →
       ∃ app' current previous l',
         handleApplyChanges parse st app
         = (mkState (dataJson st) (layoutJson st) None false (autoApply st), app')
         ∧ App.getCurrentVisualization app = Returns previous
         ∧ App.getCurrentVisualization app' = Returns (JObj current)
         ∧ current !! "plotlyData" = Some parsedData
         ∧ current !! "plotlyLayout" = Some parsedLayout
         ∧ (∀ k, k ≠ "plotlyData"%string → k ≠ "plotlyLayout"%string →
                 current !! k = own_props previous !! k)
         ∧ AppFlow.listed app' = Some l' ∧ length l' = length l
         ∧ AppFlow.editor_mounted app' = true).
Proof.
  split.
  - intros Hfail. unfold handleApplyChanges, send.
    destruct (parse (dataJson st)); [|done].
    destruct Hfail as [Hd | Hl]; [done|]. by rewrite Hl.
  - intros parsedData parsedLayout l Hd Hl Hlisted Hmounted.
    set (updates := JObj {[ "plotlyData" := parsedData; "plotlyLayout" := parsedLayout ]}).
    pose proof (editor_mounted_in_range app l Hlisted Hmounted) as Hrange.
    destruct (lookup_lt_is_Some_2 l _ Hrange) as [previous Hprev].
    pose proof (handleEditorUpdate_listed updates app l Hlisted) as Hset.
    rewrite Hprev in Hset. simpl in Hset.
    set (current := own_props updates ∪ own_props previous) in Hset.
    set (l' := array_set l (App.selectedVisualization app) (JObj current)) in Hset.
    assert (length l' = length l) as Hlen.
    { unfold l'. rewrite length_array_set. lia. }
    assert (l' !! App.selectedVisualization app = Some (JObj current)) as Hcur
      by apply array_set_lookup_eq.
    assert (l ≠ []) as Hne by (by destruct l; [simpl in Hrange; lia|]).
    assert (l' ≠ []) as Hne' by (by destruct l'; [simpl in Hlen; destruct l|]).
    set (app' := App.mkState _ _) in Hset.
    assert (AppFlow.listed app' = Some l') as Hlisted'.
    { unfold AppFlow.listed, app'. simpl. by rewrite field_insert_eq. }
    assert (App.getCurrentVisualization app = Returns previous) as Hget.
    { rewrite (getCurrentVisualization_listed app l Hlisted). rewrite Hprev.
      by destruct l. }
    assert (App.getCurrentVisualization app' = Returns (JObj current)) as Hget'.
    { rewrite (getCurrentVisualization_listed app' l' Hlisted'). simpl. rewrite Hcur.
      by destruct l'. }
    assert (∀ k, k ≠ "plotlyData"%string → k ≠ "plotlyLayout"%string →
                 current !! k = own_props previous !! k) as Hkeep.
    { intros k Hk1 Hk2. unfold current. apply lookup_union_r. unfold updates. simpl.
      rewrite lookup_insert_ne by done. by rewrite lookup_singleton_ne. }
    exists app', current, previous, l'.
    split.
    { unfold handleApplyChanges, send. rewrite Hd, Hl. fold updates. by rewrite Hset. }
    split; [exact Hget|]. split; [exact Hget'|].
    split; [unfold current; by apply lookup_union_Some_l|].
    split; [unfold current; by apply lookup_union_Some_l|].
    split; [exact Hkeep|]. split; [exact Hlisted'|]. split; [exact Hlen|].
    unfold AppFlow.editor_mounted, AppFlow.current_is_plotly in *.
    rewrite Hget in Hmounted. rewrite Hget'. simpl.
    apply andb_prop in Hmounted as [_ Hm]. unfold field.
    rewrite (Hkeep "type") by done.
    by destruct previous.
Qed.

End Editing.

Lemma apply_changes_all_or_nothing_witness :
  let parse := λ s : string,
    if String.eqb s "[]" then Some (JArr []) else
    if String.eqb s "{}" then Some (JObj ∅) else None in
  let viz := JObj {[ "type" := JStr "plotly"; "plotlyData" := JArr [JInt 1] ]} in
  let app := App.mkState (JObj {[ "visualizations" := JArr [viz] ]}) 0 in
  (PlotlyEditor.handleApplyChanges parse
     (PlotlyEditor.mkState "[" "{}" None true false) app).2 = app
  ∧ AppFlow.editor_mounted
      (PlotlyEditor.handleApplyChanges parse
         (PlotlyEditor.mkState "[]" "{}" None true false) app).2 = true.
Proof.
  intros parse viz app. split.
  - destruct (apply_changes_all_or_nothing parse
                (PlotlyEditor.mkState "[" "{}" None true false) app) as [Hfail _].
    rewrite Hfail; [reflexivity | by left].
  - destruct (apply_changes_all_or_nothing parse
                (PlotlyEditor.mkState "[]" "{}" None true false) app) as [_ Hok].
    destruct (Hok (JArr []) (JObj ∅) [viz] eq_refl eq_refl eq_refl eq_refl)
      as (app' & current & previous & l' & Heq & _ & _ & _ & _ & _ & _ & _ & Hm).
    by rewrite Heq.
Defined.

(** ** The logging service, further *)

Section LoggingMore.
Import LoggingService LoggingRuns.
Context {Arg : Type} (arg_to_string : Arg → outcome string).

Local Abbreviation state := (@state Arg).

Lemma unlooped_processQueue (s : state) :
  Forall (λ e, includes (message e) "Error sending log to server" = false) (logQueue s) →
  Forall (λ p, includes (post_message p) "Error sending log to server" = false) (posts s) →
  Forall (λ e, includes (message e) "Error sending log to server" = false)
         (logQueue (processQueue s))
  ∧ Forall (λ p, includes (post_message p) "Error sending log to server" = false)
           (posts (processQueue s)).
Proof.
  intros Hq Hp. unfold processQueue.
  destruct (isProcessingQueue s); [by split|].
  destruct (logQueue s) as [|e rest] eqn:Hqueue; [by split; rewrite ?Hqueue|]. simpl.
  split; [done|].
  apply Forall_app. split; [done|]. apply Forall_cons in Hq as [He _].
  by constructor.
Qed.

(** X21.  No message that contains "Error sending log to server" is
    ever queued or sent, in any state the service reaches, whatever the
    application logs. *)
Theorem error_reports_never_sent (s : state) :
  reachable arg_to_string s →
  Forall (λ e, includes (message e) "Error sending log to server" = false) (logQueue s)
  ∧ Forall (λ p, includes (post_message p) "Error sending log to server" = false)
           (posts s).
Proof.
  induction 1 as [|s s' _ [Hq Hp] Hstep]; [by split|].
  destruct Hstep as [m args s | failure s s' Hflag Hres | s Ht].
  - unfold console_call, queueLog.
    destruct (join arg_to_string args) as [message|e]; cbn [fst]; [|by split].
    cbn [logQueue isProcessingQueue console posts timers shifted].
    destruct (includes message "Error sending log to server") eqn:Hinc; [by split|].
    apply unlooped_processQueue; cbn [logQueue posts]; [|done].
    apply Forall_app. split; [done|]. by constructor.
  - unfold resume in Hres. destruct failure as [reason|].
    + destruct (logQueue s) as [|e rest]; [done|].
      apply Forall_cons in Hq as [He Hq].
      cbn [retries message level] in Hres.
      destruct (maxRetries <=? S (retries e))%nat; injection Hres as <-; simpl;
        split; try done. by constructor.
    + injection Hres as <-. simpl. split; [|done].
      destruct (logQueue s); [done|]. by apply Forall_cons in Hq as [_ Hq].
  - unfold timer_fired. by apply unlooped_processQueue.
Qed.

Lemma forwarded_snoc (c : list (@console_line Arg)) (line : @console_line Arg) :
  forwarded (c ++ [line])
  = forwarded c + match line with Forwarded _ _ => 1 | _ => 0 end.
Proof.
  induction c as [|x c IH]; simpl.
  - destruct line; done.
  - destruct x; rewrite IH; lia.
Qed.

Lemma remaining_snoc (queue : list LogEntry) (e : LogEntry) :
  remaining (queue ++ [e]) = remaining queue + (maxRetries - retries e).
Proof.
  induction queue as [|x queue IH]; cbn [remaining app]; [lia|]. rewrite IH. lia.
Qed.

Lemma accounted_processQueue (s : state) :
  accounted s → accounted (processQueue s).
Proof.
  intros [Hposts Hcalls]. unfold processQueue.
  destruct (isProcessingQueue s) eqn:Hflag; [by split; rewrite ?Hflag|].
  destruct (logQueue s) as [|e rest] eqn:Hq; [by split; rewrite ?Hflag, ?Hq|].
  split; simpl; rewrite ?Hq; [|done].
  rewrite length_app. simpl in *. lia.
Qed.

Lemma accounted_console_call (m : method) (args : list Arg) (s : state) :
  accounted s → accounted (console_call arg_to_string m args s).1.
Proof.
  intros [Hposts Hcalls]. unfold console_call, queueLog.
  destruct (join arg_to_string args) as [message|e]; cbn [fst].
  - cbn [logQueue isProcessingQueue console posts timers shifted].
    destruct (includes message "Error sending log to server").
    + split; simpl; [done|]. rewrite forwarded_snoc. lia.
    + apply accounted_processQueue. split; simpl.
      * rewrite length_app. simpl.
        rewrite remaining_snoc. simpl. unfold maxRetries in *. lia.
      * rewrite length_app, forwarded_snoc. simpl. lia.
  - split; simpl; [done|]. rewrite forwarded_snoc. lia.
Qed.

Lemma accounted_resume (failure : option string) (s s' : state) :
  invariant s → isProcessingQueue s = true → accounted s →
  resume failure s = Returns s' → accounted s'.
Proof.
  intros Hinv Hflag [Hposts Hcalls] Hres.
  pose proof (inv_flag s Hinv Hflag) as Hne.
  pose proof (inv_retries s Hinv) as Hr.
  rewrite Hflag in Hposts.
  destruct (logQueue s) as [|e rest] eqn:Hq; [done|].
  apply Forall_cons in Hr as [He _].
  unfold resume in Hres. rewrite Hq in Hres.
  destruct failure as [reason|]; cbn [retries message level] in Hres.
  - destruct (maxRetries <=? S (retries e))%nat eqn:Hle; injection Hres as <-.
    + apply Nat.leb_le in Hle. split; simpl in *.
      * unfold maxRetries in *. lia.
      * rewrite !forwarded_snoc. lia.
    + apply Nat.leb_gt in Hle. split; simpl in *.
      * unfold maxRetries in *. lia.
      * rewrite forwarded_snoc. lia.
  - injection Hres as <-. split; simpl in *; [|lia].
    unfold maxRetries in *. lia.
Qed.

Lemma reachable_accounted (s : state) :
  reachable arg_to_string s → accounted s.
Proof.
  induction 1 as [|s s' Hreach IH Hstep].
  - split; simpl; lia.
  - destruct Hstep as [m args s | failure s s' Hflag Hres | s Ht].
    + by apply accounted_console_call.
    + apply (accounted_resume failure s); try done.
      by apply (reachable_invariant arg_to_string).
    + unfold timer_fired. apply accounted_processQueue.
      destruct IH as [Hposts Hcalls]. by split.
Qed.

(** X22.  The service sends at most [maxRetries] requests for every
    console call the application has made: in every state it reaches, the
    number of requests issued is at most three times the number of calls
    forwarded to the original console. *)
Theorem requests_per_call (s : state) :
  reachable arg_to_string s →
  length (posts s) ≤ maxRetries * forwarded (console s).
Proof.
  intros Hreach.
  destruct (reachable_accounted s Hreach) as [Hposts Hcalls].
  pose proof (reachable_invariant arg_to_string s Hreach) as Hinv.
  assert (length (posts s) ≤ maxRetries * (shifted s + length (logQueue s))) as Hle.
  { destruct (isProcessingQueue s) eqn:Hflag; [|lia].
    pose proof (inv_flag s Hinv Hflag) as Hne.
    pose proof (inv_retries s Hinv) as Hr.
    destruct (logQueue s) as [|e rest]; [done|].
    apply Forall_cons in Hr as [He _]. simpl in *. unfold maxRetries in *. lia. }
  etrans; [exact Hle|]. by apply Nat.mul_le_mono_l.
Qed.

(** X23.  A request that is pending or a timer that is set: in every
    state the service reaches, a queue that is not empty is either being
    processed or has a timer waiting to process it, so no message is left
    behind without another attempt scheduled. *)
Theorem queue_never_stalls (s : state) :
  reachable arg_to_string s →
  isProcessingQueue s = false → logQueue s ≠ [] → 0 < timers s.
Proof. apply reachable_scheduled. Qed.

(** X24.  With the server answering and nothing new logged, the queue
    is delivered in order, each message once: from a state in which the
    head is being sent, as many rounds as there are entries empty the
    queue, and the requests issued on the way are those of the entries
    behind the head, in queue order, with their level and message. *)
Theorem delivery_in_order (s : state) (e : LogEntry) (rest : list LogEntry) :
  isProcessingQueue s = true →
  logQueue s = e :: rest →
  ∃ s', succeeding_rounds (S (length rest)) s = Returns s'
        ∧ logQueue s' = []
        ∧ isProcessingQueue s' = false
        ∧ sent_as <$> posts s' = (sent_as <$> posts s) ++ (to_send <$> rest).
Proof.
  revert s e. induction rest as [|e' rest IH]; intros s e Hflag Hq.
  - cbn [succeeding_rounds length]. unfold succeeding_round, resume. rewrite Hq.
    simpl. eexists. split; [reflexivity|]. simpl. by rewrite app_nil_r.
  - cbn [succeeding_rounds length]. unfold succeeding_round at 1. unfold resume.
    rewrite Hq. cbn [bind tail finally logQueue].
    set (s1 := timer_fired _).
    assert (isProcessingQueue s1 = true ∧ logQueue s1 = e' :: rest
            ∧ posts s1 = posts s ++ [mkPost (S (shifted s)) (level e') (message e')])
      as (Hflag1 & Hq1 & Hposts1) by done.
    destruct (IH s1 e' Hflag1 Hq1) as (s' & Hrun & Hempty & Hidle & Hsent).
    exists s'. split; [exact Hrun|]. split; [exact Hempty|]. split; [exact Hidle|].
    rewrite Hsent, Hposts1, fmap_app, fmap_cons. simpl.
    by rewrite <- app_assoc.
Qed.

End LoggingMore.

Lemma error_reports_never_sent_witness :
  let s := (LoggingService.console_call (λ x : string, Returns x) LoggingService.Error
              ["Error sending log to server: Network Error"%string]
              LoggingService.initial).1 in
  Forall (λ e, LoggingService.includes (LoggingService.message e)
                 "Error sending log to server" = false)
         (LoggingService.logQueue s).
Proof.
  intros s.
  apply (error_reports_never_sent (λ x : string, Returns x) s).
  eapply LoggingService.reachable_step; [apply LoggingService.reachable_initial|].
  constructor.
Defined.

Lemma requests_per_call_witness :
  let s := (LoggingService.console_call (λ x : string, Returns x) LoggingService.Log
              ["hello"%string] LoggingService.initial).1 in
  length (LoggingService.posts s) ≤ 3.
Proof.
  intros s.
  apply (requests_per_call (λ x : string, Returns x) s).
  eapply LoggingService.reachable_step; [apply LoggingService.reachable_initial|].
  constructor.
Defined.

Lemma queue_never_stalls_witness :
  let s0 := (LoggingService.console_call (λ x : string, Returns x) LoggingService.Log
               ["hello"%string] LoggingService.initial).1 in
  let s1 := match LoggingService.resume (Some "Network Error"%string) s0 with
            | Returns s => s
            | Throws _ => s0
            end in
  0 < LoggingService.timers s1.
Proof.
  intros s0 s1.
  apply (queue_never_stalls (λ x : string, Returns x) s1).
  - eapply LoggingService.reachable_step.
    + eapply LoggingService.reachable_step; [apply LoggingService.reachable_initial|].
      apply (LoggingService.step_call _ LoggingService.Log ["hello"%string]).
    + apply (LoggingService.step_settled _ (Some "Network Error"%string) s0);
        reflexivity.
  - reflexivity.
  - discriminate.
Defined.

Lemma delivery_in_order_witness :
  let s := (LoggingService.console_call (λ x : string, Returns x) LoggingService.Warn
              ["second"%string]
              (LoggingService.console_call (λ x : string, Returns x) LoggingService.Log
                 ["first"%string] LoggingService.initial).1).1 in
  ∃ s', LoggingRuns.succeeding_rounds 2 s = Returns s'
        ∧ LoggingRuns.sent_as <$> LoggingService.posts s'
          = [("INFO", "first"); ("WARN", "second")]%string.
Proof.
  intros s.
  destruct (delivery_in_order s
              (LoggingService.mkEntry "INFO" "first" 0)
              [LoggingService.mkEntry "WARN" "second" 0] eq_refl eq_refl)
    as (s' & Hrun & _ & _ & Hsent).
  exists s'. split; [exact Hrun | exact Hsent].
Defined.
